(** * Evolu: key derivation, secret box, node ids and the sync relay

  A shallow embedding of

  - [packages/evolu-common/src/Crypto.ts]: [slip21Derive], [SecretBoxLive],
    [NanoIdLive] and the [NodeId] schema;
  - [packages/evolu-server/src/frameworks/Express.ts]: the [clients]
    registry, [broadcast], the [app.post("/")] handler and the WebSocket
    [connection] / [message] handlers.

  JavaScript values are modelled as the code has them: a [Uint8Array] is a
  list of bytes, a string is a list of UTF-16 code units, a thrown exception
  is an explicit [Throw] result, an [Effect] is a function from its ambient
  state to an [Exit] and the next state, and the WebSocket objects live in a
  store indexed by reference so that the [clients] array and the handler
  closures alias the same sockets. *)

From Stdlib Require Import ZArith NArith Strings.Byte Ascii String List Lia Bool DecimalString.
From stdpp Require Import base list sets strings finite.
Import ListNotations.

Set Warnings "-register-all,-clear-no-such-hyp".

(* ===================================================================== *)
(** * Part I: definitions                                                 *)
(* ===================================================================== *)

(** ** JavaScript values *)

Module Js.

(** A thrown JavaScript value, by the kind of error and its message. *)
Inductive Thrown : Type :=
| Error (message : string)
| RangeError (message : string)
| TypeError (message : string).

(** A computation that returns or throws. *)
Inductive Result (A : Type) : Type :=
| Ok (a : A)
| Throw (e : Thrown).
Arguments Ok {A} a.
Arguments Throw {A} e.

Definition bind {A B} (r : Result A) (k : A → Result B) : Result B :=
  match r with
  | Ok a => k a
  | Throw e => Throw e
  end.

(** [Uint8Array]: every element is a byte by construction. *)
Abbreviation Uint8Array := (list byte).

#[global] Instance byte_eq_decision : EqDecision byte :=
  λ x y,
    match Byte.eqb x y as b return Byte.eqb x y = b → Decision (x = y) with
    | true => λ e, left (Byte.byte_dec_bl x y e)
    | false => λ e, right (Byte.eqb_false e)
    end eq_refl.

Definition byte_of_N (n : N) : byte :=
  match Byte.of_N (n mod 256) with
  | Some b => b
  | None => x00
  end.

Definition byte_xor (a b : byte) : byte :=
  byte_of_N (N.lxor (Byte.to_N a) (Byte.to_N b)).

(** [new Uint8Array(n)]: [n] zero bytes. *)
Definition new_Uint8Array (n : nat) : Uint8Array := replicate n x00.

(** [a[i] = v] on a typed array: a store out of range is ignored. *)
Definition store (a : Uint8Array) (i : nat) (v : byte) : Uint8Array :=
  <[i := v]> a.

(** [target.set(source, offset)]: copies [source] into [target] at
    [offset]; a [RangeError] when it does not fit. *)
Definition set (target source : Uint8Array) (offset : nat) : Result Uint8Array :=
  if decide (offset + length source ≤ length target) then
    Ok (take offset target ++ source ++ drop (offset + length source) target)
  else Throw (RangeError "offset is out of bounds").

(** [a.slice(start, end)] and [a.subarray(start, end)] for non-negative
    indices: both clamp to the length; the code never writes through the
    view, so the copy and the view read alike. *)
Definition slice (a : Uint8Array) (start end_ : nat) : Uint8Array :=
  take (end_ - start) (drop start a).

Definition subarray (a : Uint8Array) (start end_ : nat) : Uint8Array :=
  take (end_ - start) (drop start a).

(** [a.subarray(start)]. *)
Definition subarray_from (a : Uint8Array) (start : nat) : Uint8Array :=
  drop start a.

(** A JavaScript string: its UTF-16 code units. *)
Abbreviation JsString := (list N).

(** A string literal of the source (ASCII text). *)
Definition js (s : string) : JsString :=
  map N_of_ascii (list_ascii_of_string s).

Definition is_high_surrogate (c : N) : bool :=
  ((55296 <=? c) && (c <=? 56319))%N.
Definition is_low_surrogate (c : N) : bool :=
  ((56320 <=? c) && (c <=? 57343))%N.

(** The scalar values of a string: surrogate pairs are combined, a lone
    surrogate becomes U+FFFD. *)
Fixpoint scalar_values (s : JsString) : list N :=
  match s with
  | [] => []
  | c :: rest =>
      if is_high_surrogate c then
        match rest with
        | d :: rest' =>
            if is_low_surrogate d then
              (65536 + (c - 55296) * 1024 + (d - 56320))%N :: scalar_values rest'
            else 65533%N :: scalar_values rest
        | [] => [65533%N]
        end
      else if is_low_surrogate c then 65533%N :: scalar_values rest
      else c :: scalar_values rest
  end.

Definition utf8_of_scalar (cp : N) : Uint8Array :=
  if (cp <? 128)%N then [byte_of_N cp]
  else if (cp <? 2048)%N then
    [byte_of_N (192 + cp / 64); byte_of_N (128 + cp mod 64)]
  else if (cp <? 65536)%N then
    [byte_of_N (224 + cp / 4096); byte_of_N (128 + (cp / 64) mod 64);
     byte_of_N (128 + cp mod 64)]
  else
    [byte_of_N (240 + (cp / 262144) mod 8); byte_of_N (128 + (cp / 4096) mod 64);
     byte_of_N (128 + (cp / 64) mod 64); byte_of_N (128 + cp mod 64)].

(** [new TextEncoder().encode(s)]. *)
Definition TextEncoder_encode (s : JsString) : Uint8Array :=
  flat_map utf8_of_scalar (scalar_values s).

(** The source of [randomBytes] and of nanoid's [random]: the bytes the
    system generator will hand out, in order. *)
Definition Entropy : Type := nat → byte.

(** [randomBytes(n)]: the next [n] bytes of the generator. *)
Definition randomBytes (n : nat) (ent : Entropy) : Uint8Array * Entropy :=
  (map ent (seq 0 n), λ i, ent (n + i)).

(** The array with bit [i] flipped, the bits counted from the least
    significant bit of the first byte; past the end nothing changes. *)
Definition flip_bit (i : nat) (a : Uint8Array) : Uint8Array :=
  alter (λ b, byte_xor b (byte_of_N (N.shiftl 1 (N.of_nat (i mod 8))))) (i / 8) a.

(** The 256 bytes. *)
Definition all_bytes : list byte :=
  (λ n, byte_of_N (N.of_nat n)) <$> seq 0 256.

(** [concatBytes(a, b)] of @noble/ciphers/utils. *)
Definition concatBytes (a b : Uint8Array) : Uint8Array := a ++ b.

(** [Buffer.concat(list)]. *)
Definition Buffer_concat (chunks : list Uint8Array) : Uint8Array :=
  concat chunks.

(** *** [JSON.stringify] *)

(** The values [JSON.stringify] serialises here: JSON data, the numbers
    being the safe integers (below 2^53 in magnitude), which are the
    integers that are all numbers of JavaScript and that it prints digit
    by digit; from 10^21 on it prints an exponent. *)
Inductive Json : Type :=
| JNull
| JBool (b : bool)
| JNumber (z : Z) (safe : Is_true (Z.abs z <? 2 ^ 53)%Z)
| JString (s : JsString)
| JArray (items : list Json)
| JObject (fields : list (JsString * Json)).

Definition hex_digit (n : N) : N :=
  if (n <? 10)%N then (48 + n)%N else (87 + n)%N.

(** [\uXXXX] with lower-case digits. *)
Definition unicode_escape (c : N) : JsString :=
  [92; 117; hex_digit ((c / 4096) mod 16); hex_digit ((c / 256) mod 16);
   hex_digit ((c / 16) mod 16); hex_digit (c mod 16)]%N.

Definition escape_unit (c : N) : JsString :=
  if (c =? 8)%N then [92; 98]%N
  else if (c =? 9)%N then [92; 116]%N
  else if (c =? 10)%N then [92; 110]%N
  else if (c =? 12)%N then [92; 102]%N
  else if (c =? 13)%N then [92; 114]%N
  else if (c =? 34)%N then [92; 34]%N
  else if (c =? 92)%N then [92; 92]%N
  else if (c <? 32)%N then unicode_escape c
  else [c].

(** The characters of [QuoteJSONString] between the quotes: a surrogate
    pair is kept, a lone surrogate is escaped. *)
Fixpoint quote_units (s : JsString) : JsString :=
  match s with
  | [] => []
  | c :: rest =>
      if is_high_surrogate c then
        match rest with
        | d :: rest' =>
            if is_low_surrogate d then c :: d :: quote_units rest'
            else unicode_escape c ++ quote_units rest
        | [] => unicode_escape c
        end
      else if is_low_surrogate c then unicode_escape c ++ quote_units rest
      else escape_unit c ++ quote_units rest
  end.

Definition quote (s : JsString) : JsString :=
  [34%N] ++ quote_units s ++ [34%N].

Fixpoint JSON_stringify (v : Json) : JsString :=
  match v with
  | JNull => js "null"
  | JBool true => js "true"
  | JBool false => js "false"
  | JNumber z _ => js (NilZero.string_of_int (Z.to_int z))
  | JString s => quote s
  | JArray items =>
      js "[" ++
      (fix elements (l : list Json) : JsString :=
         match l with
         | [] => []
         | x :: rest =>
             match rest with
             | [] => JSON_stringify x
             | _ :: _ => JSON_stringify x ++ js "," ++ elements rest
             end
         end) items ++ js "]"
  | JObject fields =>
      js "{" ++
      (fix members (l : list (JsString * Json)) : JsString :=
         match l with
         | [] => []
         | (k, x) :: rest =>
             match rest with
             | [] => quote k ++ js ":" ++ JSON_stringify x
             | _ :: _ => quote k ++ js ":" ++ JSON_stringify x ++ js "," ++ members rest
             end
         end) fields ++ js "}"
  end.

(** *** Regular expressions *)

(** The fragment of JavaScript regular expressions the source uses:
    the assertions [^] and [$] (no [m] flag), a character class, sequence
    and the counted repetition [{n}]. *)
Inductive RegExp : Type :=
| Start
| End_
| Class (accepts : N → bool)
| Seq (r1 r2 : RegExp)
| Repeat (n : nat) (r : RegExp).

(** Backtracking match of [r] at offset [pos], the rest of the input being
    [s]; [k] is what has to match after it. *)
Fixpoint match_at (r : RegExp) (pos : nat) (s : JsString)
    (k : nat → JsString → bool) : bool :=
  match r with
  | Start => (pos =? 0) && k pos s
  | End_ => match s with [] => k pos s | _ :: _ => false end
  | Class accepts =>
      match s with
      | c :: s' => accepts c && k (S pos) s'
      | [] => false
      end
  | Seq r1 r2 => match_at r1 pos s (λ pos' s', match_at r2 pos' s' k)
  | Repeat n r1 =>
      (fix times (n : nat) (pos : nat) (s : JsString) : bool :=
         match n with
         | 0 => k pos s
         | S n' => match_at r1 pos s (λ pos' s', times n' pos' s')
         end) n pos s
  end.

Fixpoint search_from (r : RegExp) (pos : nat) (s : JsString) : bool :=
  match_at r pos s (λ _ _, true) ||
  match s with
  | [] => false
  | _ :: s' => search_from r (S pos) s'
  end.

(** [r.test(s)]: is there a match anywhere in [s]. *)
Definition RegExp_test (r : RegExp) (s : JsString) : bool :=
  search_from r 0 s.

Definition in_range (lo hi c : N) : bool := ((lo <=? c) && (c <=? hi))%N.

(** [\w]: [A-Za-z0-9_]. *)
Definition word_char (c : N) : bool :=
  in_range 65 90 c || in_range 97 122 c || in_range 48 57 c || (c =? 95)%N.

End Js.
Export Js.

(** ** The [effect] library *)

Module Effect.

(** [Cause<E>]: why an effect failed. [Fail] is a typed, expected error of
    the error channel [E]; [Die] is a defect, such as an exception thrown
    inside [Effect.sync]. *)
Inductive Cause (E : Type) : Type :=
| Empty
| Fail (error : E)
| Die (defect : Thrown)
| Interrupt
| Sequential (left right : Cause E)
| Parallel (left right : Cause E).
Arguments Empty {E}.
Arguments Fail {E} error.
Arguments Die {E} defect.
Arguments Interrupt {E}.
Arguments Sequential {E} left right.
Arguments Parallel {E} left right.

Inductive Exit (E A : Type) : Type :=
| Success (value : A)
| Failure (cause : Cause E).
Arguments Success {E A} value.
Arguments Failure {E A} cause.

(** The error channel [never]. *)
Definition never : Type := Empty_set.

(** An effect, run: from the state it works on ([St]: the random
    generator, the database) to its exit and the state it leaves. *)
Definition Effect (St E A : Type) : Type := St → Exit E A * St.

(** [Effect.sync(thunk)]: the value the thunk returns; an exception the
    thunk throws is a defect, not an error of the channel [E]. *)
Definition sync {St E A} (thunk : St → Result A * St) : Effect St E A :=
  λ st,
    match thunk st with
    | (Ok a, st') => (Success a, st')
    | (Throw e, st') => (Failure (Die e), st')
    end.

(** [Cause.failureOrCause]: the first typed failure of the cause, or the
    cause itself, which then has no typed failure in it. *)
Fixpoint failureOrCause {E} (c : Cause E) : E + Cause never :=
  match c with
  | Empty => inr Empty
  | Fail e => inl e
  | Die d => inr (Die d)
  | Interrupt => inr Interrupt
  | Sequential l r =>
      match failureOrCause l with
      | inl e => inl e
      | inr l' =>
          match failureOrCause r with
          | inl e => inl e
          | inr r' => inr (Sequential l' r')
          end
      end
  | Parallel l r =>
      match failureOrCause l with
      | inl e => inl e
      | inr l' =>
          match failureOrCause r with
          | inl e => inl e
          | inr r' => inr (Parallel l' r')
          end
      end
  end.

End Effect.

(** ** The @noble libraries and nanoid *)

Module Noble.

(** A hash of @noble/hashes, as [hmac] uses it. *)
Record Hash : Type := {
  blockLen : nat;
  outputLen : nat;
  digest : Uint8Array → Uint8Array
}.

(** The primitives the source imports and this development does not look
    into: SHA-512, the XSalsa20 key stream and the Poly1305 authenticator. *)
Class Primitives : Type := {
  sha512 : Hash;
  (** byte [i] of the XSalsa20 key stream of a key and a nonce *)
  xsalsa20_stream : Uint8Array → Uint8Array → nat → byte;
  (** [poly1305(msg, key)] *)
  poly1305 : Uint8Array → Uint8Array → Uint8Array
}.

(** What is assumed of them: the sizes of their outputs. *)
Class PrimitivesLaws `{Primitives} : Prop := {
  sha512_blockLen : blockLen sha512 = 128;
  sha512_outputLen : outputLen sha512 = 64;
  sha512_digest_length : ∀ m, length (digest sha512 m) = 64;
  poly1305_length : ∀ m k, length (poly1305 m k) = 16
}.

(** [Input]: what @noble/hashes takes for a key or a message. *)
Inductive Input : Type :=
| Str (s : JsString)
| Bytes (b : Uint8Array).

(** [toBytes]: a string stands for its UTF-8 bytes. *)
Definition toBytes (data : Input) : Uint8Array :=
  match data with
  | Str s => TextEncoder_encode s
  | Bytes b => b
  end.

(** [hmac(hash, key, message)]: the key, hashed when longer than a block,
    is padded with zeros to a block; the digest is
    [hash((pad xor 0x5c) || hash((pad xor 0x36) || message))]. *)
Definition hmac (hash : Hash) (key message : Input) : Uint8Array :=
  let key := toBytes key in
  let key := if decide (blockLen hash < length key) then digest hash key else key in
  let pad := key ++ replicate (blockLen hash - length key) x00 in
  let inner := digest hash (map (byte_xor x36) pad ++ toBytes message) in
  digest hash (map (byte_xor x5c) pad ++ inner).

(** [ensureBytes(b, len)]: throws [Uint8Array length ${len} expected]. *)
Definition ensureBytes (b : Uint8Array) (len : nat) : Result unit :=
  if decide (length b = len) then Ok tt
  else Throw (Error ("Uint8Array length " +:+ NilZero.string_of_uint (Nat.to_uint len)
                     +:+ " expected")).

(** [xsalsa20(key, nonce, data)]: [data] xor the key stream. This and
    the definitions after it take the key as its bytes, which is the
    library on a key that is a plain [Uint8Array]; [KeyObject] below has
    the key as the object it is, which may be a Node [Buffer]. *)
Definition xsalsa20 `{Primitives} (key nonce data : Uint8Array) : Uint8Array :=
  zip_with byte_xor data (map (xsalsa20_stream key nonce) (seq 0 (length data))).

(** [equalBytes]. *)
Definition equalBytes (a b : Uint8Array) : bool := bool_decide (a = b).

(** The object [secretbox(key, nonce)] returns. *)
Record Box : Type := {
  box_seal : Uint8Array → Result Uint8Array;
  box_open : Uint8Array → Result Uint8Array
}.

(** [xsalsa20poly1305(key, nonce).encrypt]: the first 32 bytes of the key
    stream are the one-time Poly1305 key, the plaintext is encrypted with
    the stream after them, and the 16-byte tag of the ciphertext comes
    first in the output. *)
Definition encrypt `{Primitives} (key nonce plaintext : Uint8Array) : Result Uint8Array :=
  let m := concatBytes (new_Uint8Array 32) plaintext in
  let c := xsalsa20 key nonce m in
  let authKey := subarray c 0 32 in
  let data := subarray_from c 32 in
  let tag := poly1305 data authKey in
  Ok (concatBytes tag data).

(** [xsalsa20poly1305(key, nonce).decrypt]: throws on an input shorter
    than the tag and on a tag that is not the one of the ciphertext. *)
Definition decrypt `{Primitives} (key nonce ciphertext : Uint8Array) : Result Uint8Array :=
  if decide (length ciphertext < 16) then
    Throw (Error "encrypted data should be at least 16 bytes")
  else
    let c := concatBytes (new_Uint8Array 16) ciphertext in
    let authKey := xsalsa20 key nonce (new_Uint8Array 32) in
    let tag := poly1305 (subarray_from c 32) authKey in
    if equalBytes (subarray c 16 32) tag then
      Ok (subarray_from (xsalsa20 key nonce c) 32)
    else Throw (Error "invalid tag").

(** [secretbox(key, nonce)]: XSalsa20-Poly1305 with a 32-byte key and a
    24-byte nonce; other sizes throw. *)
Definition secretbox `{Primitives} (key nonce : Uint8Array) : Result Box :=
  Js.bind (ensureBytes key 32) (λ _,
  Js.bind (ensureBytes nonce 24) (λ _,
  Ok {| box_seal := encrypt key nonce; box_open := decrypt key nonce |})).

End Noble.

Module Nanoid.

(** The loop over one batch of random bytes in [customRandom]:
    [while (i--) { id += alphabet[bytes[i] & mask] || ''; if (id.length === size) return id }].
    [inl id] is the [return], [inr id] leaves the loop with [id] so far. *)
Fixpoint batch (alphabet : JsString) (mask : N) (size : nat)
    (bytes : Uint8Array) (i : nat) (id : JsString) : JsString + JsString :=
  match i with
  | 0 => inr id
  | S i' =>
      let id :=
        match bytes !! i' with
        | Some b =>
            match alphabet !! N.to_nat (N.land (Byte.to_N b) mask) with
            | Some c => id ++ [c]
            | None => id
            end
        | None => id
        end in
      if decide (length id = size) then inl id
      else batch alphabet mask size bytes i' id
  end.

(** The [while (true)] loop around it, for at most [fuel] batches: [None]
    when they did not suffice. *)
Fixpoint batches (fuel : nat) (alphabet : JsString) (mask : N) (step size : nat)
    (id : JsString) (ent : Entropy) : option (JsString * Entropy) :=
  match fuel with
  | 0 => None
  | S fuel' =>
      let '(bytes, ent') := randomBytes step ent in
      match batch alphabet mask size bytes step id with
      | inl id' => Some (id', ent')
      | inr id' => batches fuel' alphabet mask step size id' ent'
      end
  end.

(** [customAlphabet(alphabet, defaultSize)] of nanoid 5, called without
    a size: [mask = (2 << (31 - Math.clz32((alphabet.length - 1) | 1))) - 1]
    and [step = Math.ceil((1.6 * mask * defaultSize) / alphabet.length)],
    with 1.6 as 8/5. *)
Definition customAlphabet (alphabet : JsString) (defaultSize : nat)
    (fuel : nat) (ent : Entropy) : option (JsString * Entropy) :=
  let len := N.of_nat (length alphabet) in
  let mask := (N.shiftl 2 (N.log2 (N.lor (len - 1) 1)) - 1)%N in
  let step := N.to_nat ((8 * mask * N.of_nat defaultSize + 5 * len - 1) / (5 * len)) in
  batches fuel alphabet mask step defaultSize [] ent.

End Nanoid.

(** ** [Crypto.ts] *)

Module Crypto.
Import Effect Noble.

(** [NodeId]: the strings that match [/^[\w-]{16}$/]. *)
Definition NodeId_pattern : RegExp :=
  Seq Start (Seq (Repeat 16 (Class (λ c, word_char c || (c =? 45)%N))) End_).

Definition NodeId_is (s : JsString) : bool := RegExp_test NodeId_pattern s.

(** [/^[0-9a-f]{16}$/]. *)
Definition hex16_pattern : RegExp :=
  Seq Start (Seq (Repeat 16 (Class (λ c, in_range 48 57 c || in_range 97 102 c))) End_).

Definition nanoidForNodeId : nat → Entropy → option (JsString * Entropy) :=
  Nanoid.customAlphabet (js "0123456789abcdef") 16.

(** [NanoIdLive.nanoidAsNodeId]: [Effect.sync(() => nanoidForNodeId() as NodeId)],
    the cast checks nothing. [None]: the generator's loop did not end
    within [fuel] batches. ([NanoIdLive.nanoid], the general-purpose
    identifier, is not needed below.) *)
Definition nanoidAsNodeId (fuel : nat) (ent : Entropy)
    : option (Exit never JsString * Entropy) :=
  match nanoidForNodeId fuel ent with
  | Some (id, ent') => Some (sync (λ st, (Ok id, st)) ent')
  | None => None
  end.

(** The loop of [slip21Derive], [for (let i = 0; i < path.length; i++)],
    from index [i] with [n] iterations to go. [TextEncoder.encode] of an
    index outside the array would encode the empty string; the loop never
    reads one. *)
Fixpoint slip21_loop `{Primitives} (path : list JsString) (n i : nat)
    (m : Uint8Array) : Result Uint8Array :=
  match n with
  | 0 => Ok m
  | S n' =>
      let p := TextEncoder_encode (default [] (path !! i)) in
      let e := new_Uint8Array (length p + 1) in
      let e := store e 0 x00 in
      Js.bind (Js.set e p 1) (λ e,
      let m := hmac sha512 (Bytes (slice m 0 32)) (Bytes e) in
      slip21_loop path n' (S i) m)
  end.

Definition slip21Derive `{Primitives} {St} (seed : Uint8Array) (path : list JsString)
    : Effect St never Uint8Array :=
  sync (λ st,
    (let m := hmac sha512 (Str (js "Symmetric key seed")) (Bytes seed) in
     Js.bind (slip21_loop path (length path) 0 m) (λ m,
     Ok (slice m 32 64)), st)).

(** [SecretBoxLive], on a key that is a plain [Uint8Array]. *)
Module SecretBoxLive.

Definition seal `{Primitives} (key plaintext : Uint8Array)
    : Effect Entropy never Uint8Array :=
  sync (λ ent,
    let '(nonce, ent) := randomBytes 24 ent in
    (Js.bind (secretbox key nonce) (λ box,
     Js.bind (box_seal box plaintext) (λ ciphertext,
     Ok (concatBytes nonce ciphertext))), ent)).

Definition open `{Primitives} {St} (key ciphertext : Uint8Array)
    : Effect St never Uint8Array :=
  sync (λ st,
    (let nonce := subarray ciphertext 0 24 in
     let ciphertextWithoutNonce := subarray_from ciphertext 24 in
     Js.bind (secretbox key nonce) (λ box,
     box_open box ciphertextWithoutNonce), st)).

End SecretBoxLive.

End Crypto.

(** ** The key as an object *)

(** [seal] and [open] take the key as a [Uint8Array], and a Node [Buffer]
    is one. The cipher of @noble/ciphers works on [key.slice()] and fills
    it with zeros when it is done. Of a plain [Uint8Array] [slice] is a
    copy; of a [Buffer] it is a view of the same bytes, so that the
    caller's key is zeros after the call. Here the library and
    [SecretBoxLive] are written over the bytes of the key object, which
    they read and leave; the nonce and the message are plain arrays. *)
Module KeyObject.
Import Effect Noble.

Inductive Kind : Type :=
| TypedArray
| NodeBuffer.

(** The bytes of the key after [k = key.slice()] and [k.fill(0)]. *)
Definition cleaned (kind : Kind) (key : Uint8Array) : Uint8Array :=
  match kind with
  | TypedArray => key
  | NodeBuffer => new_Uint8Array (length key)
  end.

(** A call of the library: from the bytes of the key to what it returns
    or throws, and the bytes of the key after it. *)
Definition Lib (A : Type) : Type := Uint8Array → Result A * Uint8Array.

Definition ret {A} (a : A) : Lib A := λ key, (Ok a, key).

Definition throw {A} (e : Thrown) : Lib A := λ key, (Throw e, key).

Definition bind {A B} (m : Lib A) (k : A → Lib B) : Lib B :=
  λ key,
    match m key with
    | (Ok a, key') => k a key'
    | (Throw e, key') => (Throw e, key')
    end.

Notation "'call' x ':=' e 'in' k" := (bind e (λ x, k))
  (at level 10, x name, e at level 10, k at level 200, only parsing).

(** [xsalsa20(key, nonce, data)]: the stream is the one of the key as it
    is at the call. *)
Definition xsalsa20 `{Primitives} (kind : Kind) (nonce data : Uint8Array) : Lib Uint8Array :=
  λ key, (Ok (Noble.xsalsa20 key nonce data), cleaned kind key).

(** [xsalsa20poly1305(key, nonce).encrypt]: one call of [xsalsa20]. *)
Definition encrypt `{Primitives} (kind : Kind) (nonce plaintext : Uint8Array)
    : Lib Uint8Array :=
  let m := concatBytes (new_Uint8Array 32) plaintext in
  call c := xsalsa20 kind nonce m in
  let authKey := subarray c 0 32 in
  let data := subarray_from c 32 in
  let tag := poly1305 data authKey in
  ret (concatBytes tag data).

(** [xsalsa20poly1305(key, nonce).decrypt]: one call of [xsalsa20] for the
    one-time key of the tag and, when the tag is right, another one to
    decrypt. *)
Definition decrypt `{Primitives} (kind : Kind) (nonce ciphertext : Uint8Array)
    : Lib Uint8Array :=
  if decide (length ciphertext < 16) then
    throw (Error "encrypted data should be at least 16 bytes")
  else
    let c := concatBytes (new_Uint8Array 16) ciphertext in
    call authKey := xsalsa20 kind nonce (new_Uint8Array 32) in
    let tag := poly1305 (subarray_from c 32) authKey in
    if equalBytes (subarray c 16 32) tag then
      call plaintext := xsalsa20 kind nonce c in
      ret (subarray_from plaintext 32)
    else throw (Error "invalid tag").

(** The object [secretbox(key, nonce)] returns: it holds the key object,
    not a copy of its bytes. *)
Record Box : Type := {
  box_seal : Uint8Array → Lib Uint8Array;
  box_open : Uint8Array → Lib Uint8Array
}.

Definition secretbox `{Primitives} (kind : Kind) (nonce : Uint8Array) : Lib Box :=
  λ key,
    (Js.bind (ensureBytes key 32) (λ _,
     Js.bind (ensureBytes nonce 24) (λ _,
     Ok {| box_seal := encrypt kind nonce; box_open := decrypt kind nonce |})), key).

(** [SecretBoxLive.seal], on the random generator and the bytes of the
    key. *)
Definition seal `{Primitives} (kind : Kind) (plaintext : Uint8Array)
    : Effect (Entropy * Uint8Array) never Uint8Array :=
  sync (λ '(ent, key),
    let '(nonce, ent) := randomBytes 24 ent in
    let '(result, key) :=
      (call box := secretbox kind nonce in
       call ciphertext := box_seal box plaintext in
       ret (concatBytes nonce ciphertext)) key in
    (result, (ent, key))).

(** [SecretBoxLive.open], on the bytes of the key. *)
Definition open `{Primitives} (kind : Kind) (ciphertext : Uint8Array)
    : Effect Uint8Array never Uint8Array :=
  sync (let nonce := subarray ciphertext 0 24 in
        let ciphertextWithoutNonce := subarray_from ciphertext 24 in
        call box := secretbox kind nonce in
        box_open box ciphertextWithoutNonce).

End KeyObject.

(** ** [Express.ts] *)

Module Express.
Import Effect.

(** [BadRequestError], the one typed failure of [server.sync]: the
    handler reads its field [error], the structured error value. *)
Record BadRequestError : Type := { error : Json }.

(** [Server], of [../Server.js], which is not among the sources here and
    is a parameter of the relay: the relay only calls [sync], an effect on
    the database that succeeds with the response bytes or fails, with a
    [BadRequestError] or with a cause that has no typed failure in it. *)
Class Server : Type := {
  Db : Type;
  server_sync : Uint8Array → Effect Db BadRequestError Uint8Array
}.

(** *** The [ws] library *)

Inductive ReadyState : Type := CONNECTING | OPEN | CLOSING | CLOSED.

#[global] Instance ReadyState_eq_decision : EqDecision ReadyState.
Proof. solve_decision. Defined.

(** What [send] is given: bytes go out as a binary frame, a string as a
    text frame. *)
Inductive Data : Type :=
| Binary (bytes : Uint8Array)
| Text (text : JsString).

(** A [WebSocket] object: its state and the frames sent through it, which
    are the frames its peer receives. *)
Record WebSocket : Type := {
  readyState : ReadyState;
  sent : list Data
}.

(** [WebSocket.RawData]: [Buffer | ArrayBuffer | Buffer[]]. *)
Inductive RawData : Type :=
| RawBuffer (b : Uint8Array)
| RawArrayBuffer (b : Uint8Array)
| RawBuffers (chunks : list Uint8Array).

(** *** The process *)

(** What a [try] can catch: a thrown value, or the rejection of
    [Effect.runPromise] with the cause of the failure. *)
Inductive Exn : Type :=
| Native (e : Thrown)
| FiberFailure (cause : Cause BadRequestError).

Inductive LogArg : Type :=
| LogText (s : JsString)
| LogCause (c : Cause never)
| LogExn (e : Exn)
| LogBytes (b : Uint8Array).

(** The state of the server process: the database behind [server], the
    WebSocket objects by reference, the module-level array [clients] of
    references to them, and the lines written by [console.error]. *)
Record World `{Server} : Type := {
  db : Db;
  heap : list WebSocket;
  clients : list nat;
  console : list (list LogArg)
}.

Section Process.
Context `{Server}.

Definition set_db (d : Db) (w : World) : World :=
  {| db := d; heap := heap w; clients := clients w; console := console w |}.
Definition set_heap (h : list WebSocket) (w : World) : World :=
  {| db := db w; heap := h; clients := clients w; console := console w |}.
Definition set_clients (c : list nat) (w : World) : World :=
  {| db := db w; heap := heap w; clients := c; console := console w |}.
Definition set_console (c : list (list LogArg)) (w : World) : World :=
  {| db := db w; heap := heap w; clients := clients w; console := c |}.

(** How a statement ends: normally, or by an exception. *)
Inductive Completion (A : Type) : Type :=
| Normal (a : A)
| Abrupt (e : Exn).
#[global] Arguments Normal {A} a.
#[global] Arguments Abrupt {A} e.

(** Code that runs in the process. *)
Definition M (A : Type) : Type := World → Completion A * World.

Definition ret {A} (a : A) : M A := λ w, (Normal a, w).

Definition bind {A B} (m : M A) (k : A → M B) : M B :=
  λ w,
    match m w with
    | (Normal a, w') => k a w'
    | (Abrupt e, w') => (Abrupt e, w')
    end.

(** [try { body } catch (e) { handler e }] *)
Definition try_catch {A} (body : M A) (handler : Exn → M A) : M A :=
  λ w,
    match body w with
    | (Normal a, w') => (Normal a, w')
    | (Abrupt e, w') => handler e w'
    end.

End Process.

Notation "'let*' x ':=' e 'in' k" := (bind e (λ x, k))
  (at level 10, x name, e at level 200, k at level 200, only parsing).

Section Relay.
Context `{Server}.

Definition console_error (args : list LogArg) : M unit :=
  λ w, (Normal tt, set_console (console w ++ [args]) w).

(** [ws.readyState]. A reference the code holds is never dangling; the
    store still answers for one that is. *)
Definition get_readyState (ws : nat) : M ReadyState :=
  λ w,
    match heap w !! ws with
    | Some s => (Normal (readyState s), w)
    | None => (Abrupt (Native (TypeError "not a WebSocket")), w)
    end.

(** [ws.send(data)] of the [ws] library, without a callback: while
    CONNECTING it throws; once the socket is CLOSING or CLOSED the data is
    dropped and the error goes to the absent callback; when OPEN the frame
    goes out. *)
Definition ws_send (ws : nat) (data : Data) : M unit :=
  λ w,
    match heap w !! ws with
    | Some s =>
        match readyState s with
        | CONNECTING =>
            (Abrupt (Native (Error "WebSocket is not open: readyState 0 (CONNECTING)")), w)
        | OPEN =>
            (Normal tt,
             set_heap (<[ws := {| readyState := OPEN; sent := sent s ++ [data] |}]> (heap w)) w)
        | CLOSING | CLOSED => (Normal tt, w)
        end
    | None => (Abrupt (Native (TypeError "not a WebSocket")), w)
    end.

(** [xs.map(f)] with the result dropped: [f] on each element in order;
    an exception ends it. *)
Fixpoint for_each {A} (xs : list A) (f : A → M unit) : M unit :=
  match xs with
  | [] => ret tt
  | x :: xs' => let* _ := f x in for_each xs' f
  end.

Definition broadcast (data : Uint8Array) : M unit :=
  λ w,
    for_each (clients w) (λ client,
      let* state := get_readyState client in
      if decide (state = OPEN) then ws_send client (Binary data)
      else ret tt) w.

(** *** The HTTP response object [res] *)

Inductive Body : Type :=
| BodyBytes (b : Uint8Array)
| BodyText (s : JsString).

Record Response : Type := {
  statusCode : nat;
  headers : list (JsString * JsString);
  body : option Body
}.

(** A response before the handler touches it. *)
Definition new_response : Response :=
  {| statusCode := 200; headers := []; body := None |}.

Definition getHeader (name : JsString) (res : Response) : option JsString :=
  (λ found, snd (snd found)) <$> list_find (λ h, fst h = name) (headers res).

Definition setHeader (name value : JsString) (res : Response) : Response :=
  {| statusCode := statusCode res;
     headers := filter (λ h, fst h ≠ name) (headers res) ++ [(name, value)];
     body := body res |}.

Definition status (code : nat) (res : Response) : Response :=
  {| statusCode := code; headers := headers res; body := body res |}.

(** [res.send(buffer)]: the body is the buffer; the content type stays as
    set, and is [application/octet-stream] when none was. *)
Definition send_buffer (b : Uint8Array) (res : Response) : Response :=
  let res :=
    match getHeader (js "Content-Type") res with
    | Some _ => res
    | None => setHeader (js "Content-Type") (js "application/octet-stream") res
    end in
  {| statusCode := statusCode res; headers := headers res; body := Some (BodyBytes b) |}.

(** [res.send(string)]: the body is the string, as [text/html] when no
    content type was set, and in UTF-8. *)
Definition send_string (s : JsString) (res : Response) : Response :=
  let res :=
    match getHeader (js "Content-Type") res with
    | Some type => setHeader (js "Content-Type") (type ++ js "; charset=utf-8") res
    | None => setHeader (js "Content-Type") (js "text/html; charset=utf-8") res
    end in
  {| statusCode := statusCode res; headers := headers res; body := Some (BodyText s) |}.

(** *** The handlers *)

(** [Effect.runCallback(effect, { onExit })]: the effect runs on the
    database and its exit is handed to [onExit]. *)
Definition runCallback {A B} (effect : Effect Db BadRequestError A)
    (onExit : Exit BadRequestError A → World → B) : World → B :=
  λ w, let '(exit, d) := effect (db w) in onExit exit (set_db d w).

(** [Effect.runPromise(effect)], awaited: the value, or the rejection
    thrown at the [await]. *)
Definition runPromise {A} (effect : Effect Db BadRequestError A) : M A :=
  λ w,
    match effect (db w) with
    | (Success a, d) => (Normal a, set_db d w)
    | (Failure cause, d) => (Abrupt (FiberFailure cause), set_db d w)
    end.

(** The [onExit] of [app.post]: [Exit.match] on the exit of [server.sync],
    [Cause.failureOrCause] and [Either.match] on a failure. *)
Definition post_onExit (res : Response) (exit : Exit BadRequestError Uint8Array)
    : World → Response * World :=
  λ w,
    match exit with
    | Failure cause =>
        match failureOrCause cause with
        | inl {| error := error |} =>
            (send_string (JSON_stringify error) (status 400 res), w)
        | inr error =>
            let '(_, w) := console_error [LogCause error] w in
            (send_string (js "Internal Server Error") (status 500 res), w)
        end
    | Success buffer =>
        let res := setHeader (js "Content-Type") (js "application/x-protobuf") res in
        let res := send_buffer buffer res in
        let '(_, w) :=
          try_catch (broadcast buffer)
            (λ err, console_error [LogText (js "broadcast error"); LogExn err; LogBytes buffer]) w in
        (res, w)
    end.

(** [app.post("/", (req, res) => ...)], [req.body] being [body]: the
    response it sends and the state it leaves. *)
Definition app_post (body : Uint8Array) : World → Response * World :=
  runCallback (server_sync body) (post_onExit new_response).

(** The [connection] event of the WebSocket server: the library hands the
    handler a new, open socket. *)
Definition accept : M nat :=
  λ w,
    (Normal (length (heap w)),
     set_heap (heap w ++ [{| readyState := OPEN; sent := [] |}]) w).

(** [clients.push(ws)] *)
Definition clients_push (ws : nat) : M unit :=
  λ w, (Normal tt, set_clients (clients w ++ [ws]) w).

(** The message as one [Uint8Array]: a [Buffer] is one, an [ArrayBuffer]
    is viewed as one, and fragments are concatenated. The last [else] of
    the source has no value of [RawData] left to handle. *)
Definition to_Uint8Array (message : RawData) : Uint8Array :=
  match message with
  | RawBuffer b => b
  | RawArrayBuffer b => b
  | RawBuffers chunks => Buffer_concat chunks
  end.

(** [ws.on("message", async (message) => ...)] for the socket [ws]. An
    abrupt completion is a rejection of the promise the handler returns. *)
Definition ws_on_message (ws : nat) (message : RawData) : M unit :=
  try_catch
    (let uint8ArrayMessage := to_Uint8Array message in
     let* response := runPromise (server_sync uint8ArrayMessage) in
     ws_send ws (Binary response))
    (λ error,
       let* _ := console_error [LogText (js "Error handling sync request:"); LogExn error] in
       ws_send ws
         (Text (JSON_stringify
                  (JObject [(js "error", JString (js "Failed to process sync request"))])))).

(** [wss.on("connection", (ws) => ...)]: the socket is added to [clients]
    and gets its message handler. *)
Definition wss_on_connection : M nat :=
  let* ws := accept in
  let* _ := clients_push ws in
  ret ws.

(** The peer or the transport closes a socket: an open socket starts
    closing, and a socket ends closed. The relay has no handler for it. *)
Definition transport_close (ws : nat) (final : bool) (w : World) : World :=
  match heap w !! ws with
  | Some s =>
      if final then
        set_heap (<[ws := {| readyState := CLOSED; sent := sent s |}]> (heap w)) w
      else if decide (readyState s = OPEN) then
        set_heap (<[ws := {| readyState := CLOSING; sent := sent s |}]> (heap w)) w
      else w
  | None => w
  end.

(** What happens to the relay. *)
Inductive Event : Type :=
| Connection
| Post (body : Uint8Array)
| Message (ws : nat) (message : RawData)
| Closing (ws : nat)
| Closed (ws : nat).

(** One event. A message comes in on a socket that was accepted. A
    handler is one step: the process is single-threaded, and the awaited
    [server.sync] of the message handler is run to its exit inside the
    step, the state being whatever the earlier events left. *)
Definition step (w : World) (ev : Event) : World :=
  match ev with
  | Connection => snd (wss_on_connection w)
  | Post body => snd (app_post body w)
  | Message ws message =>
      if decide (ws < length (heap w)) then snd (ws_on_message ws message w) else w
  | Closing ws => transport_close ws false w
  | Closed ws => transport_close ws true w
  end.

Definition run (w : World) (evs : list Event) : World := foldl step w evs.

(** The state the process starts in. *)
Definition initial (d : Db) : World :=
  {| db := d; heap := []; clients := []; console := [] |}.

(** *** Vocabulary of the properties *)

(** The registry holds references to sockets of the store, each once. *)
Definition registry_ok (w : World) : Prop :=
  NoDup (clients w) ∧ Forall (λ ws, ws < length (heap w)) (clients w).

(** A socket the server accepted is never CONNECTING. *)
Definition accepted_ok (w : World) : Prop :=
  Forall (λ s, readyState s ≠ CONNECTING) (heap w).

(** A socket after one more frame went out through it. *)
Definition with_frame (s : WebSocket) (data : Data) : WebSocket :=
  {| readyState := readyState s; sent := sent s ++ [data] |}.

(** From [w] to [w'] nothing happened to the sockets but frames going
    out through open ones: the registry is the same, the store holds the
    same sockets in the same states, a socket that is not open is
    untouched and an open one has its frames and perhaps more. *)
Definition only_sends (w w' : World) : Prop :=
  clients w' = clients w ∧
  length (heap w') = length (heap w) ∧
  ∀ ws s, heap w !! ws = Some s →
    ∃ s', heap w' !! ws = Some s' ∧
          readyState s' = readyState s ∧
          (readyState s ≠ OPEN → s' = s) ∧
          sent s `prefix_of` sent s'.

(** Code that does no more than that. *)
Definition sender {A} (m : M A) : Prop :=
  ∀ w, only_sends w (snd (m w)).

Definition is_connection (ev : Event) : bool :=
  match ev with
  | Connection => true
  | _ => false
  end.

(** The text frame of the message handler's [catch]:
    [{"error":"Failed to process sync request"}]. *)
Definition sync_error_frame : Data :=
  Text ([123; 34]%N ++ js "error" ++ [34; 58; 34]%N ++
        js "Failed to process sync request" ++ [34; 125]%N).

End Relay.

End Express.

(** ** The specification of the key derivation *)

Module Slip21.
Import Noble.

(** The bytes of an ASCII string. *)
Definition ascii_bytes (s : string) : Uint8Array :=
  map byte_of_ascii (list_ascii_of_string s).

(** HMAC-SHA512 of a message under a key, both byte strings. *)
Definition HMAC_SHA512 `{Primitives} (key message : Uint8Array) : Uint8Array :=
  hmac sha512 (Bytes key) (Bytes message).

(** Step 1 of the algorithm as the specification words it. *)
Definition master `{Primitives} (seed : Uint8Array) : Uint8Array :=
  HMAC_SHA512 (ascii_bytes "Symmetric key seed") seed.

(** Step 2, for one segment: the state keyed with its first 32 bytes over
    a zero byte followed by the UTF-8 bytes of the segment. *)
Definition child `{Primitives} (state : Uint8Array) (p : JsString) : Uint8Array :=
  HMAC_SHA512 (take 32 state) (x00 :: TextEncoder_encode p).

(** The algorithm: step 1, step 2 for each segment in order, and bytes
    32 to 64 of the final state. *)
Definition derive `{Primitives} (seed : Uint8Array) (path : list JsString) : Uint8Array :=
  take 32 (drop 32 (foldl child (master seed) path)).

End Slip21.

(** ** The primitives, for running the model *)

(** SHA-512 (FIPS 180-4), the XSalsa20 stream (Salsa20 and HSalsa20 of the
    Salsa20 specification) and Poly1305 (RFC 8439), which the properties
    below take as given and the test vectors of Part II run. *)
Module Reference.
#[local] Open Scope Z_scope.

Definition byte_of_Z (z : Z) : byte := byte_of_N (Z.to_N (z mod 256)).
Definition Z_of_byte (b : byte) : Z := Z.of_N (Byte.to_N b).

(** The number of a byte string, most significant byte first. *)
Fixpoint be_number (bytes : Uint8Array) (acc : Z) : Z :=
  match bytes with
  | [] => acc
  | b :: rest => be_number rest (acc * 256 + Z_of_byte b)
  end.

(** The number of a byte string, least significant byte first. *)
Fixpoint le_number (bytes : Uint8Array) : Z :=
  match bytes with
  | [] => 0
  | b :: rest => Z_of_byte b + 256 * le_number rest
  end.

Definition be_bytes (n : nat) (x : Z) : Uint8Array :=
  map (λ i, byte_of_Z (Z.shiftr x (8 * Z.of_nat (n - 1 - i)))) (seq 0 n).

Definition le_bytes (n : nat) (x : Z) : Uint8Array :=
  map (λ i, byte_of_Z (Z.shiftr x (8 * Z.of_nat i))) (seq 0 n).

Module Sha512.

(** The low 64 bits. *)
Definition word (z : Z) : Z := Z.land z 0xffffffffffffffff.
Definition rotr (n x : Z) : Z := Z.lor (Z.shiftr x n) (word (Z.shiftl x (64 - n))).
Definition Ch (x y z : Z) : Z :=
  Z.lxor (Z.land x y) (Z.land (Z.lxor x 0xffffffffffffffff) z).
Definition Maj (x y z : Z) : Z :=
  Z.lxor (Z.lxor (Z.land x y) (Z.land x z)) (Z.land y z).
Definition Sigma0 (x : Z) : Z := Z.lxor (Z.lxor (rotr 28 x) (rotr 34 x)) (rotr 39 x).
Definition Sigma1 (x : Z) : Z := Z.lxor (Z.lxor (rotr 14 x) (rotr 18 x)) (rotr 41 x).
Definition sigma0 (x : Z) : Z := Z.lxor (Z.lxor (rotr 1 x) (rotr 8 x)) (Z.shiftr x 7).
Definition sigma1 (x : Z) : Z := Z.lxor (Z.lxor (rotr 19 x) (rotr 61 x)) (Z.shiftr x 6).

Definition K : list Z :=
  [
   0x428a2f98d728ae22; 0x7137449123ef65cd; 0xb5c0fbcfec4d3b2f; 0xe9b5dba58189dbbc;
   0x3956c25bf348b538; 0x59f111f1b605d019; 0x923f82a4af194f9b; 0xab1c5ed5da6d8118;
   0xd807aa98a3030242; 0x12835b0145706fbe; 0x243185be4ee4b28c; 0x550c7dc3d5ffb4e2;
   0x72be5d74f27b896f; 0x80deb1fe3b1696b1; 0x9bdc06a725c71235; 0xc19bf174cf692694;
   0xe49b69c19ef14ad2; 0xefbe4786384f25e3; 0x0fc19dc68b8cd5b5; 0x240ca1cc77ac9c65;
   0x2de92c6f592b0275; 0x4a7484aa6ea6e483; 0x5cb0a9dcbd41fbd4; 0x76f988da831153b5;
   0x983e5152ee66dfab; 0xa831c66d2db43210; 0xb00327c898fb213f; 0xbf597fc7beef0ee4;
   0xc6e00bf33da88fc2; 0xd5a79147930aa725; 0x06ca6351e003826f; 0x142929670a0e6e70;
   0x27b70a8546d22ffc; 0x2e1b21385c26c926; 0x4d2c6dfc5ac42aed; 0x53380d139d95b3df;
   0x650a73548baf63de; 0x766a0abb3c77b2a8; 0x81c2c92e47edaee6; 0x92722c851482353b;
   0xa2bfe8a14cf10364; 0xa81a664bbc423001; 0xc24b8b70d0f89791; 0xc76c51a30654be30;
   0xd192e819d6ef5218; 0xd69906245565a910; 0xf40e35855771202a; 0x106aa07032bbd1b8;
   0x19a4c116b8d2d0c8; 0x1e376c085141ab53; 0x2748774cdf8eeb99; 0x34b0bcb5e19b48a8;
   0x391c0cb3c5c95a63; 0x4ed8aa4ae3418acb; 0x5b9cca4f7763e373; 0x682e6ff3d6b2b8a3;
   0x748f82ee5defb2fc; 0x78a5636f43172f60; 0x84c87814a1f0ab72; 0x8cc702081a6439ec;
   0x90befffa23631e28; 0xa4506cebde82bde9; 0xbef9a3f7b2c67915; 0xc67178f2e372532b;
   0xca273eceea26619c; 0xd186b8c721c0c207; 0xeada7dd6cde0eb1e; 0xf57d4f7fee6ed178;
   0x06f067aa72176fba; 0x0a637dc5a2c898a6; 0x113f9804bef90dae; 0x1b710b35131c471b;
   0x28db77f523047d84; 0x32caab7b40c72493; 0x3c9ebe0a15c9bebc; 0x431d67c49c100d4c;
   0x4cc5d4becb3e42b6; 0x597f299cfc657e2a; 0x5fcb6fab3ad6faec; 0x6c44198c4a475817
  ].

(** The eight working variables. *)
Record Registers : Type := {
  ra : Z; rb : Z; rc : Z; rd : Z; re : Z; rf : Z; rg : Z; rh : Z
}.

Definition H0 : Registers :=
  {| ra := 0x6a09e667f3bcc908; rb := 0xbb67ae8584caa73b;
     rc := 0x3c6ef372fe94f82b; rd := 0xa54ff53a5f1d36f1;
     re := 0x510e527fade682d1; rf := 0x9b05688c2b3e6c1f;
     rg := 0x1f83d9abfb41bd6b; rh := 0x5be0cd19137e2179 |}.

(** One round, on the working variables and the 16 latest words of the
    message schedule, the oldest first. *)
Definition round (state : Registers * list Z) (k : Z) : Registers * list Z :=
  let '(s, w) := state in
  let wt := nth 0 w 0 in
  let t1 := word (rh s + Sigma1 (re s) + Ch (re s) (rf s) (rg s) + k + wt) in
  let t2 := word (Sigma0 (ra s) + Maj (ra s) (rb s) (rc s)) in
  let next := word (sigma1 (nth 14 w 0) + nth 9 w 0 + sigma0 (nth 1 w 0) + wt) in
  ({| ra := word (t1 + t2); rb := ra s; rc := rb s; rd := rc s;
      re := word (rd s + t1); rf := re s; rg := rf s; rh := rg s |},
   tail w ++ [next]).

Fixpoint words (n : nat) (bytes : Uint8Array) : list Z :=
  match n with
  | O => []
  | S n' => be_number (take 8 bytes) 0 :: words n' (drop 8 bytes)
  end.

Definition compress (s : Registers) (block : Uint8Array) : Registers :=
  let '(r, _) := fold_left round K (s, words 16 block) in
  {| ra := word (ra s + ra r); rb := word (rb s + rb r);
     rc := word (rc s + rc r); rd := word (rd s + rd r);
     re := word (re s + re r); rf := word (rf s + rf r);
     rg := word (rg s + rg r); rh := word (rh s + rh r) |}.

Fixpoint blocks (n : nat) (s : Registers) (bytes : Uint8Array) : Registers :=
  match n with
  | O => s
  | S n' => blocks n' (compress s (take 128 bytes)) (drop 128 bytes)
  end.

Definition pad (message : Uint8Array) : Uint8Array :=
  let len := Z.of_nat (length message) in
  message ++ [x80] ++ replicate (Z.to_nat ((111 - len) mod 128)) x00
          ++ be_bytes 16 (8 * len).

Definition digest (message : Uint8Array) : Uint8Array :=
  let padded := pad message in
  let s := blocks (length padded / 128) H0 padded in
  be_bytes 8 (ra s) ++ be_bytes 8 (rb s) ++ be_bytes 8 (rc s) ++ be_bytes 8 (rd s) ++
  be_bytes 8 (re s) ++ be_bytes 8 (rf s) ++ be_bytes 8 (rg s) ++ be_bytes 8 (rh s).

End Sha512.

Module Salsa20.

(** The low 32 bits. *)
Definition word (z : Z) : Z := Z.land z 0xffffffff.
Definition rotl (n x : Z) : Z := Z.lor (word (Z.shiftl x n)) (Z.shiftr x (32 - n)).

(** The quarter round on the words at four positions of the state. *)
Definition quarterround (i0 i1 i2 i3 : nat) (x : list Z) : list Z :=
  let y0 := nth i0 x 0 in
  let y1 := nth i1 x 0 in
  let y2 := nth i2 x 0 in
  let y3 := nth i3 x 0 in
  let z1 := Z.lxor y1 (rotl 7 (word (y0 + y3))) in
  let z2 := Z.lxor y2 (rotl 9 (word (z1 + y0))) in
  let z3 := Z.lxor y3 (rotl 13 (word (z2 + z1))) in
  let z0 := Z.lxor y0 (rotl 18 (word (z3 + z2))) in
  <[i0 := z0]> (<[i1 := z1]> (<[i2 := z2]> (<[i3 := z3]> x))).

Definition columnround (x : list Z) : list Z :=
  quarterround 15 3 7 11 (quarterround 10 14 2 6
    (quarterround 5 9 13 1 (quarterround 0 4 8 12 x))).

Definition rowround (x : list Z) : list Z :=
  quarterround 15 12 13 14 (quarterround 10 11 8 9
    (quarterround 5 6 7 4 (quarterround 0 1 2 3 x))).

Definition doubleround (x : list Z) : list Z := rowround (columnround x).

Definition rounds20 (x : list Z) : list Z := Nat.iter 10 doubleround x.

Fixpoint le_words (n : nat) (bytes : Uint8Array) : list Z :=
  match n with
  | O => []
  | S n' => le_number (take 4 bytes) :: le_words n' (drop 4 bytes)
  end.

(** The constants, "expand 32-byte k", around the key words and the
    four words [n] of nonce and counter. *)
Definition layout (key : list Z) (n : list Z) : list Z :=
  [0x61707865] ++ take 4 key ++ [0x3320646e] ++ n ++
  [0x79622d32] ++ drop 4 key ++ [0x6b206574].

(** HSalsa20: the subkey of a key and the first 16 bytes of the nonce. *)
Definition hsalsa20 (key : list Z) (nonce16 : Uint8Array) : list Z :=
  let z := rounds20 (layout key (le_words 4 nonce16)) in
  [nth 0 z 0; nth 5 z 0; nth 10 z 0; nth 15 z 0;
   nth 6 z 0; nth 7 z 0; nth 8 z 0; nth 9 z 0].

(** Block [counter] of the Salsa20 stream of a key and an 8-byte nonce. *)
Definition block (key : list Z) (nonce8 : Uint8Array) (counter : Z) : Uint8Array :=
  let x := layout key (le_words 2 nonce8 ++ [word counter; word (Z.shiftr counter 32)]) in
  flat_map (le_bytes 4) (zip_with (λ a b, word (a + b)) x (rounds20 x)).

(** Byte [i] of the XSalsa20 stream of a 32-byte key and a 24-byte nonce. *)
Definition stream (key nonce : Uint8Array) (i : nat) : byte :=
  let subkey := hsalsa20 (le_words 8 key) (take 16 nonce) in
  nth (i mod 64)%nat (block subkey (take 8 (drop 16 nonce)) (Z.of_nat (i / 64))) x00.

End Salsa20.

Module Poly1305.

(** The accumulator over the 16-byte chunks of the message; [n] bounds
    their number. *)
Fixpoint chunks (n : nat) (acc r : Z) (msg : Uint8Array) : Z :=
  match n with
  | O => acc
  | S n' =>
      match msg with
      | [] => acc
      | _ :: _ =>
          chunks n' (((acc + le_number (take 16 msg ++ [x01])) * r) mod (2 ^ 130 - 5))
            r (drop 16 msg)
      end
  end.

Definition mac (msg key : Uint8Array) : Uint8Array :=
  let r := Z.land (le_number (take 16 key)) 0x0ffffffc0ffffffc0ffffffc0fffffff in
  let s := le_number (take 16 (drop 16 key)) in
  le_bytes 16 (chunks (length msg) 0 r msg + s).

End Poly1305.

Definition primitives : Noble.Primitives :=
  {| Noble.sha512 :=
       {| Noble.blockLen := 128; Noble.outputLen := 64; Noble.digest := Sha512.digest |};
     Noble.xsalsa20_stream := Salsa20.stream;
     Noble.poly1305 := Poly1305.mac |}.

(** Bytes written in hexadecimal, for the test vectors. *)
Definition hex_value (a : ascii) : N :=
  let n := N_of_ascii a in
  (if n <? 58 then n - 48 else n - 87)%N.

Fixpoint unhex (s : string) : Uint8Array :=
  match s with
  | String a (String b rest) => byte_of_N (hex_value a * 16 + hex_value b) :: unhex rest
  | _ => []
  end.

(** The seed of the test vectors of SLIP-0021. *)
Definition slip21_seed : Uint8Array :=
  unhex ("c76c4ac4f4e4a00d6b274d5c39c700bb4a7ddc04fbc6f78e85ca75007b5b495f" +:+
         "74a9043eeb77bdd53aa6fc3a0e31462270316fa04b8c19114c8798706cd02ac8").

(** The key, nonce, message and box of the test vector of NaCl's
    [crypto_secretbox]. *)
Definition nacl_key : Uint8Array :=
  unhex "1b27556473e985d462cd51197a9a46c76009549eac6474f206c4ee0844f68389".
Definition nacl_nonce : Uint8Array :=
  unhex "69696ee955b62b73cd62bda875fc73d68219e0036b7a0b37".
Definition nacl_message : Uint8Array :=
  unhex ("be075fc53c81f2d5cf141316ebeb0c7b5228c52a4c62cbd44b66849b64244ffc" +:+
         "e5ecbaaf33bd751a1ac728d45e6c61296cdc3c01233561f41db66cce314adb31" +:+
         "0e3be8250c46f06dceea3a7fa1348057e2f6556ad6b1318a024a838f21af1fde" +:+
         "048977eb48f59ffd4924ca1c60902e52f0a089bc76897040e082f93776384864" +:+
         "5e0705").
Definition nacl_box : Uint8Array :=
  unhex ("f3ffc7703f9400e52a7dfb4b3d3305d98e993b9f48681273c29650ba32fc76ce" +:+
         "48332ea7164d96a4476fb8c531a1186ac0dfc17c98dce87b4da7f011ec48c972" +:+
         "71d2c20f9b928fe2270d6fb863d51738b48eeee314a7cc8ab932164548e526ae" +:+
         "90224368517acfeabd6bb3732bc0e9da99832b61ca01b6de56244a9e88d5f9b3" +:+
         "7973f622a43d14a6599b1f654cb45a74e355a5").

(** A random generator that hands out the bytes 0, 1, 2, ... *)
Definition counting_entropy : Entropy := λ i, byte_of_N (N.of_nat i).

(** A random generator that hands out the nonce of the test vector, and
    zeros after it. *)
Definition nacl_entropy : Entropy := λ i, nth i nacl_nonce x00.

(** The ciphertext of the test vector xor the key stream of the key of 32
    zeros and the nonce of the test vector. *)
Definition nacl_under_zero_key : Uint8Array :=
  unhex ("3f7ec7cd9fab6e1cc1c53e2c471a79b76cd8fa9c2b2da2b0f20a781c14c519ae" +:+
         "c098c33eb11115565656a9469ff0d3b313c4f21dbc66534938f757c3c24a0701" +:+
         "a6879c58bf5f1fb6474fde8919da80b764f86a15b0bebf90da42814219f23b14" +:+
         "05c406cb6327ddce3b783d442dc12480ed0782f89875b1703bcc52fb6dbbb56c" +:+
         "c21295").

(** A server to run the relay with: the database counts the requests it
    accepted; an empty request is a bad request, a request that starts
    with the byte 0xff makes the server die, and any other is answered
    with itself. *)
Definition echo_server : Express.Server :=
  {| Express.Db := nat;
     Express.server_sync := λ body served,
       match body with
       | [] =>
           (Effect.Failure
              (Effect.Fail {| Express.error := JObject [(js "reason", JString (js "empty"))] |}),
            served)
       | b :: _ =>
           if decide (b = xff) then
             (Effect.Failure (Effect.Die (Error "database is locked")), served)
           else (Effect.Success body, S served)
       end |}.

(** A state of the relay with three registered sockets, the second one
    closed. *)
Definition three_sockets : @Express.World echo_server :=
  @Express.Build_World echo_server 0%nat
    [ {| Express.readyState := Express.OPEN; Express.sent := [] |};
      {| Express.readyState := Express.CLOSED; Express.sent := [] |};
      {| Express.readyState := Express.OPEN; Express.sent := [Express.Binary [x01]] |} ]
    [0; 1; 2]%nat
    [].

End Reference.

(** ** [NanoIdLive.nanoid] *)

Module NanoIdLive.
Import Effect.

(** [urlAlphabet] of nanoid. *)
Definition urlAlphabet : JsString :=
  js "useandom-26T198340PX75pxJACKVERYMINDBUSHWOLF_GQZbfghjklqvwyzrict".

(** What [id += alphabet[i]] appends: the character, or the text of
    [undefined] for an index outside the alphabet. *)
Definition appended (alphabet : JsString) (i : nat) : JsString :=
  match alphabet !! i with
  | Some c => [c]
  | None => js "undefined"
  end.

(** [nanoid(size)] of nanoid 5 on Node, over the next [size] bytes of its
    pool of random bytes:
    [for (let i = poolOffset - size; i < poolOffset; i++) id += urlAlphabet[pool[i] & 63]]. *)
Definition library_nanoid (size : nat) (ent : Entropy) : JsString * Entropy :=
  let '(bytes, ent') := randomBytes size ent in
  (flat_map (λ b, appended urlAlphabet (N.to_nat (N.land (Byte.to_N b) 63))) bytes, ent').

(** [NanoIdLive.nanoid]: [Effect.sync(() => nanoid())]. *)
Definition nanoid : Effect Entropy never JsString :=
  sync (λ ent, let '(id, ent') := library_nanoid 21 ent in (Ok id, ent')).

End NanoIdLive.

(** ** The life of a socket *)

Module Lifetime.
Import Express.

(** A socket [s] and the same socket later: its frames are still there,
    in order, perhaps with more after them; if it was not open it has no
    more frames and is not open; if it was closed it is as it was. *)
Definition later (s s' : WebSocket) : Prop :=
  sent s `prefix_of` sent s' ∧
  (readyState s ≠ OPEN → sent s' = sent s ∧ readyState s' ≠ OPEN) ∧
  (readyState s = CLOSED → s' = s).

End Lifetime.

(* ===================================================================== *)
(** * Part II: properties                                                 *)
(* ===================================================================== *)

(** ** Bytes and typed arrays *)

Section TypedArrays.

Lemma length_new_Uint8Array n : length (new_Uint8Array n) = n.
Proof. apply length_replicate. Qed.

(** The buffer [slip21Derive] builds for a segment: a zero byte and then
    the encoded segment; [set] does not throw. *)
Lemma set_after_zero (p : Uint8Array) :
  Js.set (store (new_Uint8Array (length p + 1)) 0 x00) p 1 = Ok (x00 :: p).
Proof.
  unfold Js.set, store.
  rewrite length_insert, length_new_Uint8Array.
  rewrite decide_True by lia.
  f_equal.
  rewrite drop_ge by (rewrite length_insert, length_new_Uint8Array; lia).
  rewrite app_nil_r.
  replace (length p + 1) with (S (length p)) by lia.
  reflexivity.
Qed.

Lemma slice_from_0 (a : Uint8Array) n : slice a 0 n = take n a.
Proof. unfold slice. by rewrite Nat.sub_0_r, drop_0. Qed.

Lemma slice_32_64 (a : Uint8Array) : slice a 32 64 = take 32 (drop 32 a).
Proof. reflexivity. Qed.

End TypedArrays.

(** ** [slip21Derive] *)

Section Slip21Derive.
Import Effect Noble Crypto Slip21.
Context `{Primitives}.

(** The key of step 1: the string is handed to [hmac], which takes its
    UTF-8 bytes, and these are its ASCII bytes. *)
Lemma seed_key_bytes :
  toBytes (Str (js "Symmetric key seed")) = ascii_bytes "Symmetric key seed".
Proof. reflexivity. Qed.

Lemma hmac_key_bytes hash (k1 k2 m : Input) :
  toBytes k1 = toBytes k2 → hmac hash k1 m = hmac hash k2 m.
Proof. unfold hmac. by intros ->. Qed.

(** The loop from index [i] is the fold of [child] over the segments
    from [i] on, and it never throws. *)
Lemma slip21_loop_foldl (path : list JsString) n i (m : Uint8Array) :
  i + n = length path →
  slip21_loop path n i m = Ok (foldl child m (drop i path)).
Proof.
  revert i m. induction n as [|n IH]; intros i m Hlen.
  - simpl. by rewrite drop_ge by lia.
  - destruct (lookup_lt_is_Some_2 path i) as [p Hp]; [lia|].
    cbn [slip21_loop]. rewrite Hp. cbn [default].
    rewrite set_after_zero. cbn [Js.bind].
    rewrite IH by lia.
    rewrite (drop_S _ _ _ Hp). cbn [foldl].
    by rewrite slice_from_0.
Qed.

Lemma slip21Derive_run {St} (seed : Uint8Array) (path : list JsString) (st : St) :
  slip21Derive seed path st = (Success (derive seed path), st).
Proof.
  unfold slip21Derive, sync.
  rewrite slip21_loop_foldl by lia.
  cbn [Js.bind]. rewrite drop_0, slice_32_64.
  unfold derive, master, HMAC_SHA512.
  by rewrite (hmac_key_bytes _ _ (Bytes (ascii_bytes "Symmetric key seed"))).
Qed.

Lemma hmac_sha512_length `{!PrimitivesLaws} (key message : Input) :
  length (hmac sha512 key message) = 64.
Proof. unfold hmac. apply sha512_digest_length. Qed.

Lemma foldl_child_length `{!PrimitivesLaws} (path : list JsString) (state : Uint8Array) :
  length state = 64 → length (foldl child state path) = 64.
Proof.
  revert state. induction path as [|p path IH]; intros state Hs; [done|].
  cbn [foldl]. apply IH. apply hmac_sha512_length.
Qed.

Lemma derive_length `{!PrimitivesLaws} (seed : Uint8Array) (path : list JsString) :
  length (derive seed path) = 32.
Proof.
  unfold derive. rewrite length_take, length_drop.
  rewrite foldl_child_length by apply hmac_sha512_length. lia.
Qed.

(** C1. For every seed and every path, running [slip21Derive] returns
    (without throwing) the key of the SLIP-21 algorithm of the
    specification: HMAC-SHA512 keyed with the ASCII bytes of
    "Symmetric key seed" over the seed, then for each segment in order
    HMAC-SHA512 keyed with the first 32 bytes of the state over a zero
    byte followed by the UTF-8 bytes of the segment, and bytes 32 to 64 of
    the final state. The key has 32 bytes, and for the empty path it is
    bytes 32 to 64 of the output of step 1. *)
Theorem slip21Derive_is_slip21 `{!PrimitivesLaws} {St}
    (seed : Uint8Array) (path : list JsString) (st : St) :
  slip21Derive seed path st = (Success (derive seed path), st) ∧
  derive seed path =
    take 32 (drop 32
      (foldl (λ state p, HMAC_SHA512 (take 32 state) (x00 :: TextEncoder_encode p))
         (HMAC_SHA512 (ascii_bytes "Symmetric key seed") seed) path)) ∧
  length (derive seed path) = 32 ∧
  slip21Derive seed [] st =
    (Success (take 32 (drop 32 (HMAC_SHA512 (ascii_bytes "Symmetric key seed") seed))), st).
Proof.
  split; [apply slip21Derive_run|].
  split; [reflexivity|].
  split; [apply derive_length|].
  by rewrite slip21Derive_run.
Qed.

End Slip21Derive.

(** ** Bytes under xor *)

Section ByteXor.

Lemma to_N_byte_of_N n : Byte.to_N (byte_of_N n) = (n mod 256)%N.
Proof.
  unfold byte_of_N. destruct (Byte.of_N (n mod 256)) as [b|] eqn:E.
  - by apply Byte.to_of_N.
  - apply Byte.of_N_None_iff in E.
    pose proof (N.mod_lt n 256). lia.
Qed.

Lemma byte_of_N_to_N b : byte_of_N (Byte.to_N b) = b.
Proof.
  unfold byte_of_N. pose proof (Byte.to_N_bounded b).
  rewrite N.mod_small by lia. by rewrite Byte.of_to_N.
Qed.

Lemma lxor_below_256 (a b : N) : (a < 256 → b < 256 → N.lxor a b < 256)%N.
Proof.
  intros Ha Hb.
  destruct (N.eq_dec (N.lxor a b) 0%N) as [->|Hne]; [lia|].
  change 256%N with (2 ^ 8)%N. apply N.log2_lt_pow2; [lia|].
  pose proof (N.log2_lxor a b) as Hmax.
  assert (N.log2 a < 8)%N.
  { destruct (N.eq_dec a 0%N) as [->|]; [done|].
    apply N.log2_lt_pow2; [lia|]. exact Ha. }
  assert (N.log2 b < 8)%N.
  { destruct (N.eq_dec b 0%N) as [->|]; [done|].
    apply N.log2_lt_pow2; [lia|]. exact Hb. }
  lia.
Qed.

Lemma to_N_byte_xor a b :
  Byte.to_N (byte_xor a b) = N.lxor (Byte.to_N a) (Byte.to_N b).
Proof.
  unfold byte_xor. rewrite to_N_byte_of_N.
  pose proof (Byte.to_N_bounded a). pose proof (Byte.to_N_bounded b).
  apply N.mod_small, lxor_below_256; lia.
Qed.

Lemma byte_xor_cancel_r a k : byte_xor (byte_xor a k) k = a.
Proof.
  unfold byte_xor at 1. rewrite to_N_byte_xor.
  rewrite N.lxor_assoc, N.lxor_nilpotent, N.lxor_0_r.
  apply byte_of_N_to_N.
Qed.

Lemma byte_xor_zero_l k : byte_xor x00 k = k.
Proof.
  unfold byte_xor. change (Byte.to_N x00) with 0%N.
  rewrite N.lxor_0_l. apply byte_of_N_to_N.
Qed.

Lemma zip_xor_zeros (l : list byte) :
  zip_with byte_xor (replicate (length l) x00) l = l.
Proof.
  induction l as [|b l IH]; [done|].
  cbn. by rewrite byte_xor_zero_l, IH.
Qed.

Lemma zip_xor_cancel (d s : list byte) :
  length d = length s →
  zip_with byte_xor (zip_with byte_xor d s) s = d.
Proof.
  revert s. induction d as [|a d IH]; intros [|k s] Hlen; try done.
  cbn. rewrite byte_xor_cancel_r, IH; [done|]. simpl in Hlen. lia.
Qed.

End ByteXor.

(** ** XSalsa20-Poly1305 as @noble/ciphers builds it *)

Section SecretBoxLibrary.
Import Noble.
Context `{Primitives}.

(** Side conditions on lengths. *)
Ltac sizes :=
  rewrite ?length_app, ?length_zip_with, ?length_map, ?length_seq,
    ?length_new_Uint8Array, ?length_take, ?length_drop;
  cbn [length]; lia.

Lemma xsalsa20_length key nonce (data : Uint8Array) :
  length (xsalsa20 key nonce data) = length data.
Proof.
  unfold xsalsa20. rewrite length_zip_with, length_map, length_seq. lia.
Qed.

Lemma xsalsa20_app key nonce (a b : Uint8Array) :
  xsalsa20 key nonce (a ++ b) =
  xsalsa20 key nonce a ++
  zip_with byte_xor b (map (xsalsa20_stream key nonce) (seq (length a) (length b))).
Proof.
  unfold xsalsa20.
  rewrite length_app, seq_app, map_app.
  rewrite zip_with_app by (by rewrite length_map, length_seq).
  reflexivity.
Qed.

Lemma xsalsa20_zeros key nonce n :
  xsalsa20 key nonce (new_Uint8Array n) = map (xsalsa20_stream key nonce) (seq 0 n).
Proof.
  unfold xsalsa20, new_Uint8Array. rewrite length_replicate.
  set (stream := map (xsalsa20_stream key nonce) (seq 0 n)).
  replace (replicate n x00) with (replicate (length stream) x00)
    by (unfold stream; by rewrite length_map, length_seq).
  apply zip_xor_zeros.
Qed.

(** The box of a plaintext: the tag of the ciphertext, then the
    ciphertext, which is the plaintext xor the stream from byte 32. *)
Lemma encrypt_box key nonce (plaintext : Uint8Array) :
  let data :=
    zip_with byte_xor plaintext
      (map (xsalsa20_stream key nonce) (seq 32 (length plaintext))) in
  encrypt key nonce plaintext =
  Ok (poly1305 data (map (xsalsa20_stream key nonce) (seq 0 32)) ++ data).
Proof.
  intros data. unfold encrypt, concatBytes, subarray, subarray_from.
  rewrite xsalsa20_app, xsalsa20_zeros, length_new_Uint8Array.
  rewrite Nat.sub_0_r, drop_0.
  rewrite take_app_length' by sizes.
  rewrite drop_app_length' by sizes.
  reflexivity.
Qed.

(** Opening a 16-byte tag followed by a ciphertext: the plaintext when the
    tag is the one of the ciphertext, an exception otherwise. *)
Lemma decrypt_box key nonce (tag data : Uint8Array) :
  length tag = 16 →
  decrypt key nonce (tag ++ data) =
  if equalBytes tag (poly1305 data (map (xsalsa20_stream key nonce) (seq 0 32)))
  then Ok (zip_with byte_xor data (map (xsalsa20_stream key nonce) (seq 32 (length data))))
  else Throw (Error "invalid tag").
Proof.
  intros Htag. unfold decrypt, concatBytes, subarray, subarray_from.
  rewrite decide_False by sizes.
  rewrite xsalsa20_zeros.
  assert (Hdrop32 : drop 32 (new_Uint8Array 16 ++ tag ++ data) = data).
  { rewrite app_assoc. apply drop_app_length'. sizes. }
  assert (Hmid : take (32 - 16) (drop 16 (new_Uint8Array 16 ++ tag ++ data)) = tag).
  { rewrite drop_app_length' by sizes. apply take_app_length'. sizes. }
  rewrite Hdrop32, Hmid.
  destruct (equalBytes _ _); [|done].
  f_equal. rewrite app_assoc, xsalsa20_app.
  rewrite drop_app_length' by (rewrite xsalsa20_length; sizes).
  by rewrite length_app, length_new_Uint8Array, Htag.
Qed.

Lemma decrypt_encrypt `{!PrimitivesLaws} key nonce (plaintext box : Uint8Array) :
  encrypt key nonce plaintext = Ok box →
  decrypt key nonce box = Ok plaintext.
Proof.
  rewrite encrypt_box. intros [= <-].
  rewrite decrypt_box by apply poly1305_length.
  unfold equalBytes. rewrite bool_decide_eq_true_2 by done.
  f_equal. rewrite length_zip_with, length_map, length_seq, Nat.min_id.
  apply zip_xor_cancel. by rewrite length_map, length_seq.
Qed.

Lemma decrypt_short key nonce (box : Uint8Array) :
  length box < 16 → ∃ e, decrypt key nonce box = Throw e.
Proof. intros Hlen. unfold decrypt. rewrite decide_True by done. eauto. Qed.

Lemma secretbox_sizes (key nonce : Uint8Array) :
  length key = 32 → length nonce = 24 →
  secretbox key nonce =
  Ok {| box_seal := encrypt key nonce; box_open := decrypt key nonce |}.
Proof.
  intros Hk Hn. unfold secretbox, ensureBytes.
  by rewrite !decide_True by done.
Qed.

Lemma secretbox_wrong_sizes (key nonce : Uint8Array) :
  length key ≠ 32 ∨ length nonce ≠ 24 → ∃ e, secretbox key nonce = Throw e.
Proof.
  intros Hlen. unfold secretbox, ensureBytes.
  destruct (decide (length key = 32)); cbn; [|eauto].
  destruct (decide (length nonce = 24)); cbn; [|eauto].
  by destruct Hlen.
Qed.

(** The library on a key object. [encrypt] makes its one call with the
    bytes of the key as they are. *)
Lemma encrypt_key_object kind nonce (plaintext key : Uint8Array) :
  KeyObject.encrypt kind nonce plaintext key =
  (encrypt key nonce plaintext, KeyObject.cleaned kind key).
Proof. reflexivity. Qed.

(** [decrypt] checks the tag with the bytes of the key as they are, and
    decrypts with what the first call left of them. *)
Lemma decrypt_key_object kind nonce (tag data key : Uint8Array) :
  length tag = 16 →
  KeyObject.decrypt kind nonce (tag ++ data) key =
  if equalBytes tag (poly1305 data (map (xsalsa20_stream key nonce) (seq 0 32)))
  then (Ok (zip_with byte_xor data
              (map (xsalsa20_stream (KeyObject.cleaned kind key) nonce)
                 (seq 32 (length data)))),
        KeyObject.cleaned kind (KeyObject.cleaned kind key))
  else (Throw (Error "invalid tag"), KeyObject.cleaned kind key).
Proof.
  intros Htag.
  unfold KeyObject.decrypt, KeyObject.bind, KeyObject.xsalsa20, KeyObject.ret,
    KeyObject.throw, concatBytes, subarray, subarray_from.
  rewrite decide_False by sizes.
  rewrite xsalsa20_zeros.
  assert (Hdrop32 : drop 32 (new_Uint8Array 16 ++ tag ++ data) = data).
  { rewrite app_assoc. apply drop_app_length'. sizes. }
  assert (Hmid : take (32 - 16) (drop 16 (new_Uint8Array 16 ++ tag ++ data)) = tag).
  { rewrite drop_app_length' by sizes. apply take_app_length'. sizes. }
  rewrite Hdrop32, Hmid.
  destruct (equalBytes _ _); [|done].
  do 2 f_equal. rewrite app_assoc, xsalsa20_app.
  rewrite drop_app_length' by (rewrite xsalsa20_length; sizes).
  by rewrite length_app, length_new_Uint8Array, Htag.
Qed.

Lemma decrypt_typed_array nonce (ciphertext key : Uint8Array) :
  KeyObject.decrypt KeyObject.TypedArray nonce ciphertext key =
  (decrypt key nonce ciphertext, key).
Proof.
  unfold KeyObject.decrypt, decrypt, KeyObject.bind, KeyObject.xsalsa20, KeyObject.ret,
    KeyObject.throw.
  destruct (decide (length ciphertext < 16)); [done|].
  cbn [KeyObject.cleaned]. by destruct (equalBytes _ _).
Qed.

End SecretBoxLibrary.

(** ** [SecretBoxLive] *)

Section SecretBoxLive.
Import Effect Noble Crypto.
Context `{Primitives}.

Lemma randomBytes_length n ent : length (fst (randomBytes n ent)) = n.
Proof. unfold randomBytes. cbn. by rewrite length_map, length_seq. Qed.

(** [open] adds nothing to the library call: the nonce is the first 24
    bytes, the box is the rest, and what the library throws is a defect. *)
Lemma open_run {St} (key sealed : Uint8Array) (st : St) :
  SecretBoxLive.open key sealed st =
  (match Js.bind (secretbox key (take 24 sealed)) (λ box, box_open box (drop 24 sealed)) with
   | Ok m => Success m
   | Throw e => Failure (Die e)
   end, st).
Proof.
  unfold SecretBoxLive.open, sync, subarray, subarray_from.
  rewrite Nat.sub_0_r, drop_0.
  by destruct (Js.bind _ _).
Qed.

(** [seal] with a 32-byte key: the 24 random bytes, then the tag of the
    ciphertext, then the ciphertext. *)
Lemma seal_run (key plaintext : Uint8Array) (ent : Entropy) :
  length key = 32 →
  ∃ nonce data,
    length nonce = 24 ∧
    nonce = fst (randomBytes 24 ent) ∧
    data = zip_with byte_xor plaintext
             (map (xsalsa20_stream key nonce) (seq 32 (length plaintext))) ∧
    encrypt key nonce plaintext =
      Ok (poly1305 data (map (xsalsa20_stream key nonce) (seq 0 32)) ++ data) ∧
    SecretBoxLive.seal key plaintext ent =
      (Success (nonce ++ poly1305 data (map (xsalsa20_stream key nonce) (seq 0 32)) ++ data),
       snd (randomBytes 24 ent)).
Proof.
  intros Hkey.
  pose proof (randomBytes_length 24 ent) as Hnonce.
  unfold SecretBoxLive.seal, sync.
  destruct (randomBytes 24 ent) as [nonce ent'].
  cbn [fst snd] in *.
  pose proof (encrypt_box key nonce plaintext) as Hbox. cbv zeta in Hbox.
  eexists nonce, _. split; [done|]. split; [done|]. split; [reflexivity|].
  split; [exact Hbox|].
  rewrite secretbox_sizes by done.
  cbn [Js.bind box_seal]. by rewrite Hbox.
Qed.

Lemma open_short {St} (key sealed : Uint8Array) (st : St) :
  length sealed < 24 + 16 →
  ∃ t, SecretBoxLive.open key sealed st = (Failure (Die t), st).
Proof.
  intros Hlen. rewrite open_run.
  destruct (decide (length key = 32 ∧ length (take 24 sealed) = 24)) as [[Hk Hn]|Hsizes].
  - rewrite secretbox_sizes by done. cbn [Js.bind box_open].
    destruct (decrypt_short key (take 24 sealed) (drop 24 sealed)) as [e ->];
      [rewrite length_drop; lia|eauto].
  - destruct (secretbox_wrong_sizes key (take 24 sealed)) as [e ->]; [|cbn; eauto].
    destruct (decide (length key = 32)); [right|left]; naive_solver.
Qed.

(** A sealed message whose 16 tag bytes are not the tag of its
    ciphertext under the key and nonce. *)
Lemma open_invalid_tag {St} (key nonce tag data : Uint8Array) (st : St) :
  length nonce = 24 → length tag = 16 →
  tag ≠ poly1305 data (map (xsalsa20_stream key nonce) (seq 0 32)) →
  ∃ t, SecretBoxLive.open key (nonce ++ tag ++ data) st = (Failure (Die t), st).
Proof.
  intros Hnonce Htag Hne. rewrite open_run.
  rewrite take_app_length', drop_app_length' by done.
  destruct (decide (length key = 32)) as [Hk|Hk].
  - rewrite secretbox_sizes by done. cbn [Js.bind box_open].
    rewrite decrypt_box by done.
    unfold equalBytes. rewrite bool_decide_eq_false_2 by done. eauto.
  - destruct (secretbox_wrong_sizes key nonce) as [e ->]; [by left|cbn; eauto].
Qed.

(** With a key the library does not change: [seal] succeeds with the
    nonce followed by the box, and [open] on what [seal] returned succeeds
    with the plaintext. *)
Lemma open_seal_bytes `{!PrimitivesLaws} (key plaintext : Uint8Array) (ent : Entropy) :
  length key = 32 →
  ∃ sealed ent',
    SecretBoxLive.seal key plaintext ent = (Success sealed, ent') ∧
    take 24 sealed = fst (randomBytes 24 ent) ∧
    ∀ St (st : St), SecretBoxLive.open key sealed st = (Success plaintext, st).
Proof.
  intros Hkey.
  destruct (seal_run key plaintext ent Hkey) as (nonce & data & Hnonce & <- & _ & Hbox & Hseal).
  eexists _, _. split; [exact Hseal|].
  split; [by apply take_app_length'|].
  intros St st. rewrite open_run.
  rewrite take_app_length', drop_app_length' by done.
  rewrite secretbox_sizes by done. cbn [Js.bind box_open].
  by rewrite (decrypt_encrypt _ _ _ _ Hbox).
Qed.

(** A sealed message of 40 bytes or more is a nonce, a tag and a
    ciphertext. *)
Lemma sealed_parts (sealed : Uint8Array) :
  24 + 16 ≤ length sealed →
  sealed = take 24 sealed ++ take 16 (drop 24 sealed) ++ drop 40 sealed ∧
  length (take 24 sealed) = 24 ∧
  length (take 16 (drop 24 sealed)) = 16.
Proof.
  intros Hlen. split; [|split].
  - rewrite <- (take_drop 24 sealed) at 1. f_equal.
    rewrite <- (take_drop 16 (drop 24 sealed)) at 1. f_equal.
    by rewrite drop_drop.
  - rewrite length_take. lia.
  - rewrite length_take, length_drop. lia.
Qed.

(** [open] on a sealed message whose tag is not the tag of its ciphertext
    under the key and the nonce. *)
Lemma open_unverified {St} (key sealed : Uint8Array) (st : St) :
  take 16 (drop 24 sealed) ≠
    poly1305 (drop 40 sealed) (map (xsalsa20_stream key (take 24 sealed)) (seq 0 32)) →
  ∃ t, SecretBoxLive.open key sealed st = (Failure (Die t), st).
Proof.
  intros Htag. destruct (decide (length sealed < 24 + 16)) as [Hshort|Hlong].
  - by apply open_short.
  - destruct (sealed_parts sealed) as (Hparts & Hnonce & Htaglen); [lia|].
    rewrite Hparts. by apply open_invalid_tag.
Qed.

(** When [open] succeeds, the tag was the tag of the ciphertext under the
    key and the nonce, and the result is the ciphertext xor the stream. *)
Lemma open_success {St} (key sealed m : Uint8Array) (st : St) :
  SecretBoxLive.open key sealed st = (Success m, st) →
  length key = 32 ∧
  24 + 16 ≤ length sealed ∧
  take 16 (drop 24 sealed) =
    poly1305 (drop 40 sealed) (map (xsalsa20_stream key (take 24 sealed)) (seq 0 32)) ∧
  m = zip_with byte_xor (drop 40 sealed)
        (map (xsalsa20_stream key (take 24 sealed)) (seq 32 (length sealed - 40))).
Proof.
  intros Hopen.
  assert (Hkey : length key = 32).
  { destruct (decide (length key = 32)) as [|Hne]; [done|].
    rewrite open_run in Hopen.
    destruct (secretbox_wrong_sizes key (take 24 sealed)) as [e He]; [by left|].
    rewrite He in Hopen. discriminate. }
  assert (Hlong : 24 + 16 ≤ length sealed).
  { destruct (decide (24 + 16 ≤ length sealed)) as [|Hshort]; [done|].
    destruct (open_short (St := St) key sealed st) as [t Ht]; [lia|]. congruence. }
  assert (Htag : take 16 (drop 24 sealed) =
    poly1305 (drop 40 sealed) (map (xsalsa20_stream key (take 24 sealed)) (seq 0 32))).
  { destruct (decide (take 16 (drop 24 sealed) =
      poly1305 (drop 40 sealed) (map (xsalsa20_stream key (take 24 sealed)) (seq 0 32))))
      as [|Hne]; [done|].
    destruct (open_unverified (St := St) key sealed st Hne) as [t Ht]. congruence. }
  split; [done|]. split; [done|]. split; [done|].
  destruct (sealed_parts sealed Hlong) as (Hparts & Hnonce & Htaglen).
  rewrite open_run in Hopen.
  rewrite secretbox_sizes in Hopen by done. cbn [Js.bind box_open] in Hopen.
  assert (Hbox : drop 24 sealed = take 16 (drop 24 sealed) ++ drop 40 sealed).
  { change 40 with (24 + 16). rewrite <- drop_drop. by rewrite take_drop. }
  rewrite Hbox in Hopen.
  rewrite decrypt_box in Hopen by done.
  unfold equalBytes in Hopen. rewrite bool_decide_eq_true_2 in Hopen by done.
  injection Hopen as <-. by rewrite length_drop.
Qed.

(** [seal] on a key object returns what it returns on the bytes of the
    key, and leaves a key of 32 bytes as the cipher's one call leaves
    it. *)
Lemma seal_key_object kind (plaintext key : Uint8Array) (ent : Entropy) :
  KeyObject.seal kind plaintext (ent, key) =
  (fst (SecretBoxLive.seal key plaintext ent),
   (snd (SecretBoxLive.seal key plaintext ent),
    if decide (length key = 32) then KeyObject.cleaned kind key else key)).
Proof.
  pose proof (randomBytes_length 24 ent) as Hnonce.
  unfold KeyObject.seal, SecretBoxLive.seal, sync.
  destruct (randomBytes 24 ent) as [nonce ent']. cbn [fst] in Hnonce.
  unfold KeyObject.bind, KeyObject.secretbox, secretbox, ensureBytes.
  rewrite (decide_True (P := length nonce = 24)) by done.
  destruct (decide (length key = 32)); reflexivity.
Qed.

(** [open] on a key that is a plain [Uint8Array] is [open] on its bytes,
    and leaves them. *)
Lemma open_typed_array (sealed key : Uint8Array) :
  KeyObject.open KeyObject.TypedArray sealed key = SecretBoxLive.open key sealed key.
Proof.
  unfold KeyObject.open, SecretBoxLive.open, sync.
  unfold KeyObject.bind, KeyObject.secretbox, secretbox, ensureBytes.
  destruct (decide (length key = 32)); [|reflexivity].
  destruct (decide (length (subarray sealed 0 24) = 24)); [|reflexivity].
  cbn [Js.bind KeyObject.box_open box_open].
  rewrite decrypt_typed_array. by destruct (decrypt _ _ _).
Qed.

(** [open] on a key that is a Node [Buffer], on a sealed input that
    [open] accepts under the bytes of the key: the tag is checked under
    the key, the ciphertext is decrypted under 32 zeros, and zeros are
    what is left of the key. *)
Lemma open_node_buffer {St} (sealed key m : Uint8Array) (st : St) :
  SecretBoxLive.open key sealed st = (Success m, st) →
  KeyObject.open KeyObject.NodeBuffer sealed key =
  (Success (zip_with byte_xor (drop 40 sealed)
              (map (xsalsa20_stream (new_Uint8Array 32) (take 24 sealed))
                 (seq 32 (length sealed - 40)))),
   new_Uint8Array 32).
Proof.
  intros Hopen.
  destruct (open_success key sealed m st Hopen) as (Hkey & Hlong & Htag & _).
  destruct (sealed_parts sealed Hlong) as (_ & Hnonce & Htaglen).
  unfold KeyObject.open, sync, subarray, subarray_from.
  rewrite Nat.sub_0_r, drop_0.
  unfold KeyObject.bind, KeyObject.secretbox, ensureBytes.
  rewrite !decide_True by done. cbn [Js.bind KeyObject.box_open].
  assert (Hbox : drop 24 sealed = take 16 (drop 24 sealed) ++ drop 40 sealed).
  { change 40 with (24 + 16). rewrite <- drop_drop. by rewrite take_drop. }
  rewrite Hbox, decrypt_key_object by done.
  unfold equalBytes. rewrite bool_decide_eq_true_2 by done.
  cbn [KeyObject.cleaned]. rewrite length_new_Uint8Array, Hkey, length_drop.
  reflexivity.
Qed.

(** C10. [seal] and [open] have the error channel [never], and [open]
    checks nothing itself: a failure of either is a defect, the exception
    thrown by the library, never a typed failure. A run of [open] ends
    either in success or in such a defect, and it ends in a defect for
    every input shorter than 24+16 bytes and for every sealed message
    whose 16 tag bytes were replaced by other bytes. *)
Theorem open_fails_by_defect `{!PrimitivesLaws} {St} (key : Uint8Array) (st : St) :
  (∀ sealed,
     (∃ m, SecretBoxLive.open key sealed st = (Success m, st)) ∨
     (∃ t, SecretBoxLive.open key sealed st = (Failure (Die t), st))) ∧
  (∀ sealed cause,
     fst (SecretBoxLive.open key sealed st) = Failure cause →
     ∃ cause', failureOrCause cause = inr cause') ∧
  (∀ plaintext ent cause,
     fst (SecretBoxLive.seal key plaintext ent) = Failure cause →
     ∃ t, cause = Die t) ∧
  (∀ sealed,
     length sealed < 24 + 16 →
     ∃ t, SecretBoxLive.open key sealed st = (Failure (Die t), st)) ∧
  (∀ plaintext ent sealed ent' tag',
     SecretBoxLive.seal key plaintext ent = (Success sealed, ent') →
     length tag' = 16 →
     tag' ≠ take 16 (drop 24 sealed) →
     ∃ t, SecretBoxLive.open key (take 24 sealed ++ tag' ++ drop 40 sealed) st
          = (Failure (Die t), st)).
Proof.
  split; [|split; [|split; [|split]]].
  - intros sealed. rewrite open_run. destruct (Js.bind _ _); eauto.
  - intros sealed cause. rewrite open_run. cbn [fst].
    destruct (Js.bind _ _); [done|]. intros [= <-]. cbn. eauto.
  - intros plaintext ent cause. unfold SecretBoxLive.seal, sync.
    destruct (randomBytes 24 ent) as [nonce ent'].
    destruct (Js.bind _ _); cbn [fst]; [done|]. intros [= <-]. eauto.
  - intros sealed. apply open_short.
  - intros plaintext ent sealed ent' tag' Hseal Htag Hne.
    destruct (decide (length key = 32)) as [Hkey|Hkey]; last first.
    { rewrite open_run.
      destruct (secretbox_wrong_sizes key (take 24 (take 24 sealed ++ tag' ++ drop 40 sealed)))
        as [e ->]; [by left|cbn; eauto]. }
    destruct (seal_run key plaintext ent Hkey) as (nonce & data & Hnonce & _ & _ & _ & Hseal').
    set (tag := poly1305 data _) in *.
    assert (Htag0 : length tag = 16) by apply poly1305_length.
    assert (sealed = nonce ++ tag ++ data) as -> by congruence.
    rewrite take_app_length' by done.
    rewrite drop_app_length' in Hne by done.
    rewrite take_app_length' in Hne by done.
    replace (drop 40 (nonce ++ tag ++ data)) with data.
    + by apply open_invalid_tag.
    + rewrite app_assoc. symmetry. apply drop_app_length'.
      rewrite length_app. lia.
Qed.

End SecretBoxLive.

(** ** What [open] rejects, and what it cannot *)

Section Tampering.
Import Effect Noble Crypto.

Lemma byte_xor_bit_changes (b : byte) (k : nat) :
  k < 8 → byte_xor b (byte_of_N (N.shiftl 1 (N.of_nat k))) ≠ b.
Proof.
  intros Hk Heq. apply (f_equal Byte.to_N) in Heq.
  rewrite to_N_byte_xor, to_N_byte_of_N in Heq.
  assert (Hbit : (N.shiftl 1 (N.of_nat k) mod 256 ≠ 0)%N).
  { do 8 (destruct k as [|k]; [done|]). lia. }
  apply Hbit. set (m := (N.shiftl 1 (N.of_nat k) mod 256)%N) in *.
  transitivity (N.lxor (Byte.to_N b) (N.lxor (Byte.to_N b) m)).
  - by rewrite <- N.lxor_assoc, N.lxor_nilpotent, N.lxor_0_l.
  - rewrite Heq. apply N.lxor_nilpotent.
Qed.

(** Flipping a bit of an array changes it, and not its length. *)
Lemma flip_bit_changes (i : nat) (a : Uint8Array) :
  i / 8 < length a → flip_bit i a ≠ a ∧ length (flip_bit i a) = length a.
Proof.
  intros Hi. unfold flip_bit. split; [|apply length_alter].
  destruct (lookup_lt_is_Some_2 a (i / 8) Hi) as [b Hb].
  intros Heq. apply (f_equal (λ l, l !! (i / 8))) in Heq.
  rewrite list_lookup_alter_eq, Hb in Heq.
  cbv [fmap option_fmap option_map] in Heq.
  assert (Hk : i mod 8 < 8) by (apply Nat.mod_upper_bound; lia).
  apply (byte_xor_bit_changes b (i mod 8) Hk). congruence.
Qed.

(** A bit of the tag of a sealed message: flipping it flips a bit of the
    tag and leaves the nonce and the ciphertext. *)
Lemma flip_bit_in_tag (i : nat) (nonce tag data : Uint8Array) :
  length nonce = 24 → length tag = 16 →
  8 * 24 ≤ i < 8 * (24 + 16) →
  flip_bit i (nonce ++ tag ++ data) = nonce ++ flip_bit (i - 8 * 24) tag ++ data ∧
  (i - 8 * 24) / 8 < length tag.
Proof.
  intros Hnonce Htag Hi.
  assert (Hdiv : i / 8 = 24 + (i - 8 * 24) / 8).
  { replace i with ((i - 8 * 24) + 24 * 8) at 1 by lia.
    rewrite Nat.div_add by lia. lia. }
  assert (Hmod : i mod 8 = (i - 8 * 24) mod 8).
  { replace i with ((i - 8 * 24) + 24 * 8) at 1 by lia.
    by rewrite Nat.Div0.mod_add. }
  assert (Hlt : (i - 8 * 24) / 8 < 16).
  { apply Nat.Div0.div_lt_upper_bound. lia. }
  split; [|lia].
  unfold flip_bit. rewrite Hdiv, Hmod.
  replace (24 + (i - 8 * 24) / 8) with (length nonce + (i - 8 * 24) / 8) by lia.
  rewrite alter_app_r. f_equal.
  by rewrite alter_app_l by (rewrite Htag; exact Hlt).
Qed.

Section WithPrimitives.
Context `{Primitives} `{!PrimitivesLaws}.

(** Flipping a bit of the 16 tag bytes of a sealed message makes [open]
    fail. *)
Lemma open_flipped_tag_bit {St} (key plaintext sealed : Uint8Array) (st : St) ent ent' i :
  SecretBoxLive.seal key plaintext ent = (Success sealed, ent') →
  8 * 24 ≤ i < 8 * (24 + 16) →
  ∃ t, SecretBoxLive.open key (flip_bit i sealed) st = (Failure (Die t), st).
Proof.
  intros Hseal Hi.
  destruct (decide (length key = 32)) as [Hkey|Hkey]; last first.
  { rewrite open_run.
    destruct (secretbox_wrong_sizes key (take 24 (flip_bit i sealed))) as [e ->];
      [by left|cbn; eauto]. }
  destruct (seal_run key plaintext ent Hkey) as (nonce & data & Hnonce & _ & _ & _ & Hseal').
  set (tag := poly1305 data _) in *.
  assert (Htag : length tag = 16) by apply poly1305_length.
  assert (sealed = nonce ++ tag ++ data) as -> by congruence.
  destruct (flip_bit_in_tag i nonce tag data Hnonce Htag Hi) as [-> Hin].
  destruct (flip_bit_changes (i - 8 * 24) tag Hin) as [Hne Hlen].
  apply open_invalid_tag; [done|congruence|done].
Qed.

(** [all_bytes] lists every byte once. *)
Lemma all_bytes_NoDup : NoDup all_bytes.
Proof.
  unfold all_bytes. apply NoDup_fmap_2_strong; [|apply NoDup_seq].
  intros x y Hx%elem_of_seq Hy%elem_of_seq Heq.
  apply (f_equal Byte.to_N) in Heq. rewrite !to_N_byte_of_N in Heq.
  rewrite !N.mod_small in Heq by lia. lia.
Qed.

Lemma all_bytes_complete (b : byte) : b ∈ all_bytes.
Proof.
  unfold all_bytes. apply list_elem_of_fmap.
  exists (N.to_nat (Byte.to_N b)). split.
  - by rewrite N2Nat.id, byte_of_N_to_N.
  - apply elem_of_seq. pose proof (Byte.to_N_bounded b). lia.
Qed.

(** A 16-byte tag cannot tell all 32-byte keys apart: there are 256^32
    keys and 256^16 tags, so for every nonce and every ciphertext two
    different keys give the same tag. *)
Lemma tag_collision (nonce data : Uint8Array) :
  ∃ key1 key2 : Uint8Array,
    length key1 = 32 ∧ length key2 = 32 ∧ key1 ≠ key2 ∧
    poly1305 data (map (xsalsa20_stream key1 nonce) (seq 0 32)) =
    poly1305 data (map (xsalsa20_stream key2 nonce) (seq 0 32)).
Proof.
  pose (byte_finite :=
    {| enum := all_bytes; NoDup_enum := all_bytes_NoDup;
       elem_of_enum := all_bytes_complete |} : Finite byte).
  pose (tag_of := λ key : {l : list byte | length l = 32},
    poly1305 data (map (xsalsa20_stream (`key) nonce) (seq 0 32)) ↾ poly1305_length _ _
    : {l : list byte | length l = 16}).
  destruct (finite_pigeonhole tag_of) as (key1 & key2 & Hne & Heq).
  { rewrite !list_card.
    assert (card byte = 256) as -> by reflexivity.
    apply Nat.pow_lt_mono_r; lia. }
  exists (`key1), (`key2).
  split; [apply (proj2_sig key1)|]. split; [apply (proj2_sig key2)|]. split.
  - intros Hkeys. apply Hne. by apply (sig_eq_pi _).
  - by injection Heq.
Qed.

(** [seal] of the empty plaintext, and [open] of a nonce and a tag. *)
Lemma seal_empty (key : Uint8Array) (ent : Entropy) :
  length key = 32 →
  SecretBoxLive.seal key [] ent =
  (Success (fst (randomBytes 24 ent) ++
            poly1305 [] (map (xsalsa20_stream key (fst (randomBytes 24 ent))) (seq 0 32))),
   snd (randomBytes 24 ent)).
Proof.
  intros Hkey.
  destruct (seal_run key [] ent Hkey) as (nonce & data & Hnonce & -> & -> & _ & Hseal).
  rewrite Hseal. cbn [zip_with]. by rewrite app_nil_r.
Qed.

Lemma open_tag_only {St} (key nonce : Uint8Array) (st : St) :
  length key = 32 → length nonce = 24 →
  SecretBoxLive.open key
    (nonce ++ poly1305 [] (map (xsalsa20_stream key nonce) (seq 0 32))) st
  = (Success [], st).
Proof.
  intros Hkey Hnonce. rewrite open_run.
  rewrite take_app_length', drop_app_length' by done.
  rewrite secretbox_sizes by done. cbn [Js.bind box_open].
  rewrite <- (app_nil_r (poly1305 _ _)).
  rewrite decrypt_box by apply poly1305_length.
  unfold equalBytes. by rewrite bool_decide_eq_true_2.
Qed.

(** So some sealed message is opened by a key that is not the key it was
    sealed with. *)
Lemma open_with_another_key (ent : Entropy) :
  ∃ (key key' sealed : Uint8Array) ent',
    length key = 32 ∧ length key' = 32 ∧ key' ≠ key ∧
    SecretBoxLive.seal key [] ent = (Success sealed, ent') ∧
    SecretBoxLive.open key' sealed tt = (Success [], tt).
Proof.
  destruct (tag_collision (fst (randomBytes 24 ent)) [])
    as (key & key' & Hkey & Hkey' & Hne & Htag).
  eexists key, key', _, _.
  split; [done|]. split; [done|]. split; [done|].
  split; [by apply seal_empty|].
  rewrite Htag. apply open_tag_only; [done|apply randomBytes_length].
Qed.

End WithPrimitives.

End Tampering.

(** ** Regular expressions of the form [^[class]{n}$] *)

Section AnchoredClass.

(** [n] characters of a class: a prefix of [n] accepted characters, and
    the continuation on the rest. *)
Lemma match_repeat_class (accepts : N → bool) n pos (s : JsString) k :
  match_at (Repeat n (Class accepts)) pos s k = true ↔
  ∃ a b, s = a ++ b ∧ length a = n ∧ forallb accepts a = true ∧ k (pos + n) b = true.
Proof.
  revert pos s. induction n as [|n IH]; intros pos s.
  - cbn. rewrite Nat.add_0_r. split.
    + intros Hk. by exists [], s.
    + intros (a & b & -> & Ha & _ & Hk). by destruct a.
  - change (match_at (Repeat (S n) (Class accepts)) pos s k)
      with (match s with
            | c :: s' => accepts c && match_at (Repeat n (Class accepts)) (S pos) s' k
            | [] => false
            end).
    destruct s as [|c s'].
    + split; [done|]. intros (a & b & Hs & Ha & _). by destruct a.
    + rewrite andb_true_iff, IH. split.
      * intros (Hc & a & b & -> & Ha & Hall & Hk).
        exists (c :: a), b. cbn. rewrite Hc, Hall.
        replace (pos + S n) with (S pos + n) by lia. auto.
      * intros (a & b & Hs & Ha & Hall & Hk).
        destruct a as [|c' a]; [done|]. cbn in Hs, Ha, Hall.
        injection Hs as -> ->. apply andb_true_iff in Hall as [Hc Hall].
        split; [done|]. exists a, b.
        replace (S pos + n) with (pos + S n) by lia. auto with lia.
Qed.

Lemma match_anchored_class (accepts : N → bool) n pos (s : JsString) :
  match_at (Seq Start (Seq (Repeat n (Class accepts)) End_)) pos s (λ _ _, true) = true ↔
  pos = 0 ∧ length s = n ∧ forallb accepts s = true.
Proof.
  cbn [match_at]. rewrite andb_true_iff, Nat.eqb_eq.
  change ((fix times (n0 pos0 : nat) (s0 : JsString) {struct n0} : bool := _) n pos s)
    with (match_at (Repeat n (Class accepts)) pos s
            (λ pos' s', match s' with [] => true | _ :: _ => false end)).
  rewrite match_repeat_class. split.
  - intros (-> & a & b & -> & Ha & Hall & Hend).
    destruct b; [|done]. by rewrite app_nil_r.
  - intros (-> & Hlen & Hall). split; [done|].
    exists s, []. by rewrite app_nil_r.
Qed.

Lemma search_anchored_later (accepts : N → bool) n pos (s : JsString) :
  search_from (Seq Start (Seq (Repeat n (Class accepts)) End_)) (S pos) s = false.
Proof.
  revert pos. induction s as [|c s IH]; intros pos.
  - cbn [search_from]. rewrite orb_false_r.
    apply not_true_is_false. rewrite match_anchored_class. naive_solver.
  - cbn [search_from]. rewrite IH, orb_false_r.
    apply not_true_is_false. rewrite match_anchored_class. naive_solver.
Qed.

(** [/^[class]{n}$/.test(s)]: [s] has [n] characters, all of the class. *)
Lemma test_anchored_class (accepts : N → bool) n (s : JsString) :
  RegExp_test (Seq Start (Seq (Repeat n (Class accepts)) End_)) s = true ↔
  length s = n ∧ forallb accepts s = true.
Proof.
  unfold RegExp_test. destruct s as [|c s].
  - cbn [search_from]. rewrite orb_false_r, match_anchored_class. naive_solver.
  - cbn [search_from]. rewrite search_anchored_later, orb_false_r.
    rewrite match_anchored_class. naive_solver.
Qed.

End AnchoredClass.

(** ** [NanoIdLive.nanoidAsNodeId] *)

Section NodeIds.
Import Effect Crypto.

(** A batch over an alphabet that every masked byte indexes: each byte
    adds one character, so the identifier is complete after as many bytes
    as it still lacks. *)
Lemma batch_returns (alphabet : JsString) mask size (bytes : Uint8Array) i (id : JsString) :
  (∀ b : byte, N.to_nat (N.land (Byte.to_N b) mask) < length alphabet) →
  i ≤ length bytes →
  length id < size →
  size ≤ length id + i →
  ∃ added,
    Nanoid.batch alphabet mask size bytes i id = inl (id ++ added) ∧
    length (id ++ added) = size ∧
    Forall (λ c, c ∈ alphabet) added.
Proof.
  intros Hmask. revert id. induction i as [|i IH]; intros id Hi Hid Hsize; [lia|].
  destruct (lookup_lt_is_Some_2 bytes i) as [b Hb]; [lia|].
  destruct (lookup_lt_is_Some_2 alphabet _ (Hmask b)) as [c Hc].
  cbn [Nanoid.batch]. rewrite Hb, Hc.
  destruct (decide (length (id ++ [c]) = size)) as [Hdone|Hmore].
  - exists [c]. split; [done|]. split; [done|].
    constructor; [|constructor]. by eapply list_elem_of_lookup_2.
  - rewrite length_app in Hmore. cbn in Hmore.
    destruct (IH (id ++ [c])) as (added & Hrun & Hlen & Hall).
    + lia.
    + rewrite length_app. cbn. lia.
    + rewrite length_app. cbn. lia.
    + exists (c :: added). rewrite <- app_assoc in Hrun, Hlen. cbn in Hrun, Hlen.
      split; [done|]. split; [done|].
      constructor; [|done]. by eapply list_elem_of_lookup_2.
Qed.

Lemma land_15_below_16 (b : byte) :
  N.to_nat (N.land (Byte.to_N b) 15) < length (js "0123456789abcdef").
Proof.
  change 15%N with (N.ones 4). rewrite N.land_ones.
  pose proof (N.mod_lt (Byte.to_N b) (2 ^ 4)) as Hlt.
  change (length (js "0123456789abcdef")) with 16.
  change (2 ^ 4)%N with 16%N in *. lia.
Qed.

(** The generator of node identifiers ends within its first batch of
    random bytes, with 16 characters of its alphabet. *)
Lemma nanoidForNodeId_returns (fuel : nat) (ent : Entropy) :
  ∃ id ent',
    nanoidForNodeId (S fuel) ent = Some (id, ent') ∧
    length id = 16 ∧
    Forall (λ c, c ∈ js "0123456789abcdef") id.
Proof.
  unfold nanoidForNodeId, Nanoid.customAlphabet.
  change (N.of_nat (length (js "0123456789abcdef"))) with 16%N.
  change (N.shiftl 2 (N.log2 (N.lor (16 - 1) 1)) - 1)%N with 15%N.
  change (N.to_nat ((8 * 15 * N.of_nat 16 + 5 * 16 - 1) / (5 * 16))) with 24.
  cbn [Nanoid.batches].
  pose proof (randomBytes_length 24 ent) as Hlen.
  destruct (randomBytes 24 ent) as [bytes ent']. cbn [fst] in Hlen.
  destruct (batch_returns (js "0123456789abcdef") 15 16 bytes 24 [])
    as (id & Hrun & Hid & Hall).
  - apply land_15_below_16.
  - lia.
  - cbn. lia.
  - cbn. lia.
  - rewrite Hrun. cbn in Hid. eauto.
Qed.

Lemma hex_alphabet (c : N) :
  c ∈ js "0123456789abcdef" →
  in_range 48 57 c || in_range 97 102 c = true.
Proof.
  intros Hc. apply list_elem_of_In in Hc. cbn in Hc.
  repeat (destruct Hc as [<-|Hc]; [reflexivity|]). done.
Qed.

Lemma hex_is_word_or_dash (c : N) :
  in_range 48 57 c || in_range 97 102 c = true →
  word_char c || (c =? 45)%N = true.
Proof.
  unfold word_char, in_range.
  rewrite !orb_true_iff, !andb_true_iff, !N.leb_le, !N.eqb_eq. lia.
Qed.

Lemma forallb_Forall_impl {A} (P : A → Prop) (f : A → bool) (l : list A) :
  (∀ x, P x → f x = true) → Forall P l → forallb f l = true.
Proof.
  intros Hf. induction 1 as [|x l Hx _ IH]; [done|].
  cbn. by rewrite (Hf x Hx), IH.
Qed.

(** C8. Every run of [nanoidAsNodeId] that is given at least one batch
    returns, and what it returns is a string of exactly 16 characters of
    the alphabet 0123456789abcdef; it matches [^[0-9a-f]{16}$] and the
    pattern [^[\\w-]{16}$] of the [NodeId] schema. *)
Theorem nanoidAsNodeId_is_NodeId (fuel : nat) (ent : Entropy) :
  ∃ id ent',
    nanoidAsNodeId (S fuel) ent = Some (Success id, ent') ∧
    length id = 16 ∧
    Forall (λ c, c ∈ js "0123456789abcdef") id ∧
    RegExp_test hex16_pattern id = true ∧
    NodeId_is id = true.
Proof.
  destruct (nanoidForNodeId_returns fuel ent) as (id & ent' & Hrun & Hlen & Hall).
  exists id, ent'. unfold nanoidAsNodeId. rewrite Hrun.
  split; [done|]. split; [done|]. split; [done|].
  unfold NodeId_is, hex16_pattern, NodeId_pattern.
  rewrite !test_anchored_class.
  split; (split; [done|]).
  - eapply forallb_Forall_impl; [|exact Hall]. apply hex_alphabet.
  - eapply forallb_Forall_impl; [|exact Hall].
    intros c Hc. by apply hex_is_word_or_dash, hex_alphabet.
Qed.

End NodeIds.

(** ** The relay: sockets and the registry *)

Section Sockets.
Import Effect Express.
Context `{Server}.

Lemma set_heap_same (w : World) : set_heap (heap w) w = w.
Proof. by destruct w. Qed.

Lemma only_sends_refl (w : World) : only_sends w w.
Proof. repeat split. intros ws s Hs. exists s. eauto. Qed.

Lemma only_sends_trans (w1 w2 w3 : World) :
  only_sends w1 w2 → only_sends w2 w3 → only_sends w1 w3.
Proof.
  intros (Hc1 & Hl1 & Hs1) (Hc2 & Hl2 & Hs2).
  split; [congruence|]. split; [congruence|].
  intros ws s Hs.
  destruct (Hs1 ws s Hs) as (s2 & Hs2' & Hr2 & Hsame2 & Hpre2).
  destruct (Hs2 ws s2 Hs2') as (s3 & Hs3' & Hr3 & Hsame3 & Hpre3).
  exists s3. split; [done|]. split; [congruence|]. split.
  - intros Hne. rewrite Hsame3 by congruence. by apply Hsame2.
  - by etrans.
Qed.

(** A change outside the sockets and the registry. *)
Lemma only_sends_elsewhere (w w' : World) :
  heap w' = heap w → clients w' = clients w → only_sends w w'.
Proof.
  intros Hh Hc. split; [done|]. split; [by rewrite Hh|].
  intros ws s Hs. exists s. rewrite Hh. eauto.
Qed.

Lemma sender_ret {A} (a : A) : sender (ret a).
Proof. intros w. apply only_sends_refl. Qed.

Lemma sender_bind {A B} (m : M A) (k : A → M B) :
  sender m → (∀ a, sender (k a)) → sender (bind m k).
Proof.
  intros Hm Hk w. unfold bind. specialize (Hm w).
  destruct (m w) as [[a|e] w']; cbn in *; [|done].
  eapply only_sends_trans; [exact Hm|apply Hk].
Qed.

Lemma sender_try_catch {A} (body : M A) (handler : Exn → M A) :
  sender body → (∀ e, sender (handler e)) → sender (try_catch body handler).
Proof.
  intros Hb Hh w. unfold try_catch. specialize (Hb w).
  destruct (body w) as [[a|e] w']; cbn in *; [done|].
  eapply only_sends_trans; [exact Hb|apply Hh].
Qed.

Lemma sender_for_each {A} (xs : list A) (f : A → M unit) :
  (∀ x, sender (f x)) → sender (for_each xs f).
Proof.
  intros Hf. induction xs as [|x xs IH]; cbn [for_each].
  - apply sender_ret.
  - apply sender_bind; [apply Hf|]. intros _. exact IH.
Qed.

Lemma sender_console_error args : sender (console_error args).
Proof. intros w. by apply only_sends_elsewhere. Qed.

Lemma sender_get_readyState ws : sender (get_readyState ws).
Proof.
  intros w. unfold get_readyState.
  destruct (heap w !! ws); apply only_sends_refl.
Qed.

Lemma sender_runPromise {A} (effect : Effect Db BadRequestError A) :
  sender (runPromise effect).
Proof.
  intros w. unfold runPromise.
  destruct (effect (db w)) as [[a|c] d]; by apply only_sends_elsewhere.
Qed.

(** [send] through an open socket. *)
Lemma ws_send_open ws data (w : World) s :
  heap w !! ws = Some s → readyState s = OPEN →
  ws_send ws data w = (Normal tt, set_heap (<[ws := with_frame s data]> (heap w)) w).
Proof.
  intros Hs Hopen. unfold ws_send, with_frame. by rewrite Hs, Hopen.
Qed.

(** [send] through a socket that is closing or closed. *)
Lemma ws_send_after_close ws data (w : World) s :
  heap w !! ws = Some s → readyState s = CLOSING ∨ readyState s = CLOSED →
  ws_send ws data w = (Normal tt, w).
Proof.
  intros Hs Hst. unfold ws_send. rewrite Hs. by destruct Hst as [-> | ->].
Qed.

Lemma only_sends_frame ws data (w : World) s :
  heap w !! ws = Some s → readyState s = OPEN →
  only_sends w (set_heap (<[ws := with_frame s data]> (heap w)) w).
Proof.
  intros Hs Hopen. split; [done|]. split; [apply length_insert|].
  intros i si Hi. cbn [heap set_heap].
  destruct (decide (i = ws)) as [->|Hne].
  - assert (si = s) as -> by congruence.
    exists (with_frame s data).
    rewrite list_lookup_insert_eq by (by eapply lookup_lt_Some).
    split; [done|]. split; [done|]. split; [done|].
    by apply prefix_app_r.
  - exists si. rewrite list_lookup_insert_ne by done. eauto.
Qed.

Lemma sender_ws_send ws data : sender (ws_send ws data).
Proof.
  intros w. destruct (heap w !! ws) as [s|] eqn:Hs.
  - destruct (readyState s) eqn:Hst.
    + unfold ws_send. rewrite Hs, Hst. apply only_sends_refl.
    + rewrite (ws_send_open _ _ _ _ Hs Hst). by apply only_sends_frame.
    + rewrite (ws_send_after_close _ _ _ _ Hs) by auto. apply only_sends_refl.
    + rewrite (ws_send_after_close _ _ _ _ Hs) by auto. apply only_sends_refl.
  - unfold ws_send. rewrite Hs. apply only_sends_refl.
Qed.

Lemma sender_broadcast data : sender (broadcast data).
Proof.
  intros w. unfold broadcast. apply sender_for_each. intros client.
  apply sender_bind; [apply sender_get_readyState|].
  intros state. destruct (decide (state = OPEN)).
  - apply sender_ws_send.
  - apply sender_ret.
Qed.

Lemma sender_ws_on_message ws message : sender (ws_on_message ws message).
Proof.
  unfold ws_on_message. apply sender_try_catch.
  - apply sender_bind; [apply sender_runPromise|]. intros response.
    apply sender_ws_send.
  - intros e. apply sender_bind; [apply sender_console_error|]. intros _.
    apply sender_ws_send.
Qed.

Lemma post_onExit_only_sends res exit (w : World) :
  only_sends w (snd (post_onExit res exit w)).
Proof.
  unfold post_onExit. destruct exit as [buffer|cause].
  - pose proof (sender_try_catch (broadcast buffer)
      (λ err, console_error [LogText (js "broadcast error"); LogExn err; LogBytes buffer])
      (sender_broadcast buffer) (λ e, sender_console_error _) w) as Hs.
    by destruct (try_catch _ _ w).
  - destruct (failureOrCause cause) as [[error]|cause'].
    + apply only_sends_refl.
    + by apply only_sends_elsewhere.
Qed.

Lemma app_post_only_sends body (w : World) :
  only_sends w (snd (app_post body w)).
Proof.
  unfold app_post, runCallback.
  destruct (server_sync body (db w)) as [exit d].
  eapply only_sends_trans; [|apply post_onExit_only_sends].
  by apply only_sends_elsewhere.
Qed.

End Sockets.

(** ** The relay: broadcast *)

Section Broadcast.
Import Effect Express.
Context `{Server}.

(** The loop of [broadcast] over distinct references into the store: it
    ends normally, and exactly the open sockets among them have one more
    frame, the data. *)
Lemma broadcast_loop (data : Uint8Array) (cs : list nat) (w : World) :
  NoDup cs → Forall (λ ws, ws < length (heap w)) cs →
  ∃ h',
    for_each cs (λ client,
      let* state := get_readyState client in
      if decide (state = OPEN) then ws_send client (Binary data) else ret tt) w
    = (Normal tt, set_heap h' w) ∧
    length h' = length (heap w) ∧
    ∀ ws s, heap w !! ws = Some s →
      h' !! ws =
      Some (if decide (ws ∈ cs ∧ readyState s = OPEN) then with_frame s (Binary data) else s).
Proof.
  intros Hnodup. revert w.
  induction Hnodup as [|c cs Hc Hnodup IH]; intros w Hvalid.
  - exists (heap w). cbn [for_each]. unfold ret. rewrite set_heap_same.
    split; [done|]. split; [done|]. intros ws s Hs.
    rewrite decide_False; [done|]. rewrite elem_of_nil. tauto.
  - apply Forall_cons in Hvalid as [Hlt Hvalid].
    destruct (lookup_lt_is_Some_2 _ _ Hlt) as [sc Hsc].
    cbn [for_each]. unfold bind at 1. unfold bind at 1.
    unfold get_readyState at 1. rewrite Hsc.
    destruct (decide (readyState sc = OPEN)) as [Hopen|Hnot].
    + rewrite (ws_send_open _ _ _ _ Hsc Hopen).
      set (w1 := set_heap (<[c := with_frame sc (Binary data)]> (heap w)) w).
      destruct (IH w1) as (h' & Hrun & Hlen & Hlook).
      { cbn. by rewrite length_insert. }
      exists h'. rewrite Hrun. split; [done|]. split.
      { rewrite Hlen. cbn. apply length_insert. }
      intros ws s Hs. destruct (decide (ws = c)) as [->|Hne].
      * assert (s = sc) as -> by congruence.
        rewrite (Hlook c (with_frame sc (Binary data)))
          by (cbn; by apply list_lookup_insert_eq).
        rewrite decide_False by tauto.
        rewrite decide_True; [done|]. split; [set_solver|done].
      * rewrite (Hlook ws s) by (cbn; by rewrite list_lookup_insert_ne).
        f_equal. repeat case_decide; try done; set_solver.
    + unfold ret at 1.
      destruct (IH w Hvalid) as (h' & Hrun & Hlen & Hlook).
      exists h'. rewrite Hrun. split; [done|]. split; [done|].
      intros ws s Hs. rewrite (Hlook ws s Hs).
      f_equal. destruct (decide (ws = c)) as [->|Hne].
      * assert (s = sc) as -> by congruence.
        rewrite !decide_False by tauto. done.
      * repeat case_decide; try done; set_solver.
Qed.

Lemma broadcast_run (data : Uint8Array) (w : World) :
  registry_ok w →
  ∃ h',
    broadcast data w = (Normal tt, set_heap h' w) ∧
    length h' = length (heap w) ∧
    ∀ ws s, heap w !! ws = Some s →
      h' !! ws =
      Some (if decide (ws ∈ clients w ∧ readyState s = OPEN)
            then with_frame s (Binary data) else s).
Proof. intros [Hnodup Hvalid]. by apply broadcast_loop. Qed.

End Broadcast.

(** ** The relay: [app.post] *)

Section AppPost.
Import Effect Express.
Context `{Server}.

Lemma app_post_run body (w : World) exit d :
  server_sync body (db w) = (exit, d) →
  app_post body w = post_onExit new_response exit (set_db d w).
Proof. intros Hsync. unfold app_post, runCallback. by rewrite Hsync. Qed.

(** C4. In a state whose registry holds distinct sockets of the store, a
    POST whose [server.sync] succeeds with [R] is answered with status
    200, content type application/x-protobuf and the body [R], and [R] is
    broadcast: every registered socket that is open has one more frame,
    [R], and every other socket is as it was. *)
Theorem post_success (body R : Uint8Array) (w : World) d :
  registry_ok w →
  server_sync body (db w) = (Success R, d) →
  ∃ res w',
    app_post body w = (res, w') ∧
    statusCode res = 200 ∧
    getHeader (js "Content-Type") res = Some (js "application/x-protobuf") ∧
    Express.body res = Some (BodyBytes R) ∧
    clients w' = clients w ∧
    length (heap w') = length (heap w) ∧
    (∀ ws s, heap w !! ws = Some s → ws ∈ clients w → readyState s = OPEN →
       heap w' !! ws = Some (with_frame s (Binary R))) ∧
    (∀ ws s, heap w !! ws = Some s → ws ∉ clients w ∨ readyState s ≠ OPEN →
       heap w' !! ws = Some s).
Proof.
  intros Hok Hsync.
  rewrite (app_post_run _ _ _ _ Hsync).
  destruct (broadcast_run R (set_db d w) Hok) as (h' & Hrun & Hlen & Hlook).
  unfold post_onExit, try_catch. rewrite Hrun.
  eexists _, _. split; [reflexivity|].
  split; [reflexivity|]. split; [reflexivity|]. split; [reflexivity|].
  split; [reflexivity|]. split; [exact Hlen|]. split.
  - intros ws s Hs Hin Hopen. cbn [heap set_heap].
    rewrite (Hlook ws s Hs). by rewrite decide_True.
  - intros ws s Hs Hnot. cbn [heap set_heap].
    rewrite (Hlook ws s Hs). rewrite decide_False; [done|]. tauto.
Qed.

(** C5. A POST whose [server.sync] fails with a [BadRequestError]
    carrying [E] is answered with status 400 and the body
    [JSON.stringify(E)]; nothing is sent to any socket: but for the
    database, the state is as it was. *)
Theorem post_bad_request (body : Uint8Array) (E : Json) (w : World) cause d :
  server_sync body (db w) = (Failure cause, d) →
  failureOrCause cause = inl {| error := E |} →
  ∃ res,
    app_post body w = (res, set_db d w) ∧
    statusCode res = 400 ∧
    Express.body res = Some (BodyText (JSON_stringify E)) ∧
    heap (set_db d w) = heap w ∧
    clients (set_db d w) = clients w.
Proof.
  intros Hsync Hcause.
  rewrite (app_post_run _ _ _ _ Hsync).
  unfold post_onExit. rewrite Hcause.
  eexists. split; [reflexivity|]. by repeat split.
Qed.

(** C6. A POST whose [server.sync] fails without a typed failure in the
    cause is logged with [console.error] and answered with status 500 and
    the body "Internal Server Error". The response is this one whatever
    the cause (any other such failure, in any state, is answered with the
    same response), so nothing of the cause reaches the client; and
    nothing is sent to any socket. *)
Theorem post_internal_error (body : Uint8Array) (w : World) cause cause' d :
  server_sync body (db w) = (Failure cause, d) →
  failureOrCause cause = inr cause' →
  app_post body w =
    ({| statusCode := 500;
        headers := [(js "Content-Type", js "text/html; charset=utf-8")];
        Express.body := Some (BodyText (js "Internal Server Error")) |},
     set_console (console w ++ [[LogCause cause']]) (set_db d w)) ∧
  (∀ (w2 : World) cause2 cause2',
     failureOrCause cause2 = inr cause2' →
     fst (post_onExit new_response (Failure cause2) w2) = fst (app_post body w)) ∧
  heap (snd (app_post body w)) = heap w ∧
  clients (snd (app_post body w)) = clients w.
Proof.
  intros Hsync Hcause.
  rewrite (app_post_run _ _ _ _ Hsync).
  unfold post_onExit. rewrite Hcause.
  split; [done|]. split; [|done].
  intros w2 cause2 cause2' ->. done.
Qed.

End AppPost.

(** ** The relay: WebSocket messages *)

Section WsMessage.
Import Effect Express.
Context `{Server}.

(** The notification of the [catch] is [JSON.stringify] of the object
    with the one field [error]. *)
Lemma sync_error_frame_json :
  Text (JSON_stringify (JObject [(js "error", JString (js "Failed to process sync request"))]))
  = sync_error_frame.
Proof. reflexivity. Qed.

(** What the message handler does, by the exit of [server.sync] and the
    state of the socket at the time. *)
Lemma ws_message_run (ws : nat) (message : RawData) (w : World) s exit d :
  heap w !! ws = Some s →
  readyState s ≠ CONNECTING →
  server_sync (to_Uint8Array message) (db w) = (exit, d) →
  ∃ frame log,
    match exit with
    | Success R => frame = Binary R ∧ log = []
    | Failure cause =>
        frame = sync_error_frame ∧
        log = [[LogText (js "Error handling sync request:"); LogExn (FiberFailure cause)]]
    end ∧
    ws_on_message ws message w =
      (Normal tt,
       set_heap
         (<[ws := if decide (readyState s = OPEN) then with_frame s frame else s]> (heap w))
         (set_console (console w ++ log) (set_db d w))).
Proof.
  intros Hs Hacc Hsync.
  assert (Hsend : ∀ frame (w0 : World),
    heap w0 = heap w →
    ws_send ws frame w0 =
    (Normal tt,
     set_heap
       (<[ws := if decide (readyState s = OPEN) then with_frame s frame else s]> (heap w)) w0)).
  { intros frame w0 Hheap. destruct (decide (readyState s = OPEN)) as [Hopen|Hnot].
    - rewrite (ws_send_open ws frame w0 s) by (by rewrite ?Hheap). by rewrite Hheap.
    - rewrite (ws_send_after_close ws frame w0 s).
      + rewrite list_insert_id by done. by rewrite <- Hheap, set_heap_same.
      + by rewrite Hheap.
      + destruct (readyState s); auto; done. }
  unfold ws_on_message, try_catch, bind, runPromise. rewrite Hsync.
  destruct exit as [R|cause].
  - exists (Binary R), []. split; [done|].
    rewrite (Hsend (Binary R) (set_db d w) eq_refl).
    do 2 f_equal. destruct w. cbn. by rewrite app_nil_r.
  - exists sync_error_frame,
      [[LogText (js "Error handling sync request:"); LogExn (FiberFailure cause)]].
    split; [done|].
    unfold console_error. rewrite sync_error_frame_json.
    by rewrite Hsend.
Qed.

(** C7. A message on a socket [ws] the server accepted. When
    [server.sync] succeeds with [R], [R] is sent through [ws]; when it
    fails, with whatever cause, the rejection is caught and logged and the
    JSON text [{"error":"Failed to process sync request"}] is sent through
    [ws]. Sent through an open socket the frame goes out; through a socket
    that closed in the meantime it is dropped. In every case the handler
    ends normally, every other socket is as it was, nothing else happens
    to [ws], whose state is the same, and the registry is unchanged. *)
Theorem ws_message (ws : nat) (message : RawData) (w : World) s exit d :
  heap w !! ws = Some s →
  readyState s ≠ CONNECTING →
  server_sync (to_Uint8Array message) (db w) = (exit, d) →
  ∃ frame log,
    match exit with
    | Success R => frame = Binary R ∧ log = []
    | Failure cause =>
        frame = sync_error_frame ∧
        log = [[LogText (js "Error handling sync request:"); LogExn (FiberFailure cause)]]
    end ∧
    ws_on_message ws message w =
      (Normal tt,
       set_heap
         (<[ws := if decide (readyState s = OPEN) then with_frame s frame else s]> (heap w))
         (set_console (console w ++ log) (set_db d w))) ∧
    (∀ other, other ≠ ws →
       heap (snd (ws_on_message ws message w)) !! other = heap w !! other) ∧
    (readyState <$> heap (snd (ws_on_message ws message w)) !! ws) = Some (readyState s) ∧
    clients (snd (ws_on_message ws message w)) = clients w.
Proof.
  intros Hs Hacc Hsync.
  destruct (ws_message_run ws message w s exit d Hs Hacc Hsync)
    as (frame & log & Hshape & Hrun).
  exists frame, log. split; [done|]. split; [done|].
  rewrite Hrun. cbn [snd heap set_heap clients].
  split; [|split; [|done]].
  - intros other Hne. by rewrite list_lookup_insert_ne.
  - rewrite list_lookup_insert_eq by (by eapply lookup_lt_Some).
    by destruct (decide (readyState s = OPEN)).
Qed.

(** Whatever the state of the socket, a message on it sends nothing
    through any other socket and closes none. *)
Lemma ws_message_elsewhere (ws : nat) (message : RawData) (w : World) other s :
  other ≠ ws → heap w !! other = Some s →
  heap (snd (ws_on_message ws message w)) !! other = Some s.
Proof.
  intros Hne Hs.
  assert (Hsend : ∀ data (w0 : World),
    heap (snd (ws_send ws data w0)) !! other = heap w0 !! other).
  { intros data w0. unfold ws_send.
    destruct (heap w0 !! ws) as [s0|]; [|reflexivity].
    destruct (readyState s0); cbn [snd heap set_heap]; try reflexivity.
    by rewrite list_lookup_insert_ne. }
  unfold ws_on_message, try_catch, bind, runPromise, console_error.
  destruct (server_sync (to_Uint8Array message) (db w)) as [[R|cause] d].
  - pose proof (Hsend (Binary R) (set_db d w)) as Hr.
    destruct (ws_send ws (Binary R) (set_db d w)) as [[[]|e] w1]; cbn [snd] in Hr |- *.
    + rewrite Hr. exact Hs.
    + rewrite Hsend. cbn [heap set_console]. rewrite Hr. exact Hs.
  - rewrite Hsend. exact Hs.
Qed.

End WsMessage.

(** ** The relay: the registry over time *)

Section Registry.
Import Effect Express.
Context `{Server}.

Lemma transport_close_clients ws final (w : World) :
  clients (transport_close ws final w) = clients w ∧
  length (heap (transport_close ws final w)) = length (heap w).
Proof.
  unfold transport_close. destruct (heap w !! ws) as [s|]; [|done].
  destruct final; [|destruct (decide (readyState s = OPEN))];
    cbn; by rewrite ?length_insert.
Qed.

(** What one event does to the registry and to the size of the store. *)
Lemma step_registry (w : World) (ev : Event) :
  clients (step w ev) =
    (if is_connection ev then clients w ++ [length (heap w)] else clients w) ∧
  length (heap (step w ev)) =
    (if is_connection ev then S (length (heap w)) else length (heap w)).
Proof.
  destruct ev as [|body|ws message|ws|ws]; cbn [step is_connection].
  - cbn. rewrite length_app. cbn. split; [done|lia].
  - destruct (app_post_only_sends body w) as (Hc & Hl & _). done.
  - destruct (decide (ws < length (heap w))); [|done].
    destruct (sender_ws_on_message ws message w) as (Hc & Hl & _). done.
  - apply transport_close_clients.
  - apply transport_close_clients.
Qed.

Lemma run_snoc (w : World) (evs : list Event) (ev : Event) :
  run w (evs ++ [ev]) = step (run w evs) ev.
Proof. unfold run. by rewrite foldl_app. Qed.

Lemma run_registry (w : World) (evs : list Event) :
  ∃ added,
    clients (run w evs) = clients w ++ added ∧
    length added = length (filter (λ ev, is_connection ev = true) evs).
Proof.
  induction evs as [|ev evs IH] using rev_ind.
  - exists []. by rewrite app_nil_r.
  - destruct IH as (added & Hc & Hl).
    rewrite run_snoc, filter_app, length_app.
    destruct (step_registry (run w evs) ev) as [Hstep _]. rewrite Hstep.
    destruct (is_connection ev) eqn:Hev.
    + exists (added ++ [length (heap (run w evs))]).
      rewrite Hc, <- app_assoc. split; [done|].
      rewrite length_app, Hl, filter_cons_True by done. done.
    + exists added. split; [done|].
      rewrite filter_cons_False by (by rewrite Hev). cbn. lia.
Qed.

(** The registry invariant holds at the start and after every event. *)
Lemma registry_ok_initial d : registry_ok (initial d).
Proof. split; cbn; [apply NoDup_nil_2|apply Forall_nil_2]. Qed.

Lemma registry_ok_step (w : World) (ev : Event) :
  registry_ok w → registry_ok (step w ev).
Proof.
  intros [Hnodup Hvalid].
  destruct (step_registry w ev) as [Hc Hl].
  unfold registry_ok. rewrite Hc, Hl.
  destruct (is_connection ev).
  - split.
    + apply NoDup_app. split; [done|]. split; [|apply NoDup_singleton].
      intros ws Hin Hnew. apply list_elem_of_singleton in Hnew as ->.
      rewrite Forall_forall in Hvalid. specialize (Hvalid _ Hin). lia.
    + apply Forall_app. split.
      * eapply Forall_impl; [exact Hvalid|]. cbn. lia.
      * apply Forall_singleton. lia.
  - done.
Qed.

Lemma registry_ok_run (w : World) (evs : list Event) :
  registry_ok w → registry_ok (run w evs).
Proof.
  intros Hok. induction evs as [|ev evs IH] using rev_ind; [done|].
  rewrite run_snoc. by apply registry_ok_step.
Qed.

(** Accepted sockets are never CONNECTING, at the start and after every
    event. *)
Lemma only_sends_accepted (w w' : World) :
  only_sends w w' → accepted_ok w → accepted_ok w'.
Proof.
  intros (_ & Hl & Hsock) Hacc. unfold accepted_ok in *.
  rewrite Forall_lookup in Hacc |- *. intros ws s' Hs'.
  destruct (lookup_lt_is_Some_2 (heap w) ws) as [s Hs].
  { rewrite <- Hl. by eapply lookup_lt_Some. }
  destruct (Hsock ws s Hs) as (s'' & Hs'' & Hr & _).
  assert (s'' = s') as -> by congruence.
  rewrite Hr. by eapply Hacc.
Qed.

Lemma accepted_ok_initial d : accepted_ok (initial d).
Proof. apply Forall_nil_2. Qed.

Lemma accepted_ok_step (w : World) (ev : Event) :
  accepted_ok w → accepted_ok (step w ev).
Proof.
  intros Hacc. destruct ev as [|body|ws message|ws|ws]; cbn [step].
  - unfold accepted_ok. cbn. apply Forall_app. split; [done|].
    by apply Forall_singleton.
  - eapply only_sends_accepted; [apply app_post_only_sends|done].
  - destruct (decide (ws < length (heap w))); [|done].
    eapply only_sends_accepted; [apply sender_ws_on_message|done].
  - unfold transport_close. destruct (heap w !! ws) as [s|]; [|done].
    destruct (decide (readyState s = OPEN)); [|done].
    unfold accepted_ok. cbn. by apply Forall_insert.
  - unfold transport_close. destruct (heap w !! ws) as [s|]; [|done].
    unfold accepted_ok. cbn. by apply Forall_insert.
Qed.

Lemma accepted_ok_run (w : World) (evs : list Event) :
  accepted_ok w → accepted_ok (run w evs).
Proof.
  intros Hok. induction evs as [|ev evs IH] using rev_ind; [done|].
  rewrite run_snoc. by apply accepted_ok_step.
Qed.

(** In a state the relay can reach, the message handler of an accepted
    socket ends normally: no rejection is left unhandled. *)
Lemma ws_on_message_ends_normally d (evs : list Event) ws message :
  ws < length (heap (run (initial d) evs)) →
  fst (ws_on_message ws message (run (initial d) evs)) = Normal tt.
Proof.
  intros Hws. set (w := run (initial d) evs) in *.
  destruct (lookup_lt_is_Some_2 _ _ Hws) as [s Hs].
  assert (Hacc : readyState s ≠ CONNECTING).
  { pose proof (accepted_ok_run (initial d) evs (accepted_ok_initial d)) as Hall.
    unfold accepted_ok in Hall. rewrite Forall_lookup in Hall. by eapply Hall. }
  destruct (server_sync (to_Uint8Array message) (db w)) as [exit d'] eqn:Hsync.
  destruct (ws_message_run ws message w s exit d' Hs Hacc Hsync)
    as (frame & log & _ & Hrun).
  by rewrite Hrun.
Qed.

(** C9. The registry only grows. An event changes it only when it is a
    connection, which appends the accepted socket; over any sequence of
    events the registry is the one before followed by one socket for each
    connection, so its length never decreases. [broadcast] leaves the
    registry as it is, and a socket that is not open is skipped: it is
    the same after [broadcast] as before. *)
Theorem registry_append_only :
  (∀ (w : World) ev,
     clients (step w ev) =
     if is_connection ev then clients w ++ [length (heap w)] else clients w) ∧
  (∀ (w : World) evs,
     ∃ added,
       clients (run w evs) = clients w ++ added ∧
       length added = length (filter (λ ev, is_connection ev = true) evs)) ∧
  (∀ (w : World) evs, length (clients w) ≤ length (clients (run w evs))) ∧
  (∀ data (w : World), clients (snd (broadcast data w)) = clients w) ∧
  (∀ data (w : World) ws s,
     heap w !! ws = Some s → readyState s ≠ OPEN →
     heap (snd (broadcast data w)) !! ws = Some s).
Proof.
  split; [|split; [|split; [|split]]].
  - intros w ev. apply step_registry.
  - apply run_registry.
  - intros w evs. destruct (run_registry w evs) as (added & -> & _).
    rewrite length_app. lia.
  - intros data w. by destruct (sender_broadcast data w) as (Hc & _).
  - intros data w ws s Hs Hne.
    destruct (sender_broadcast data w) as (_ & _ & Hsock).
    destruct (Hsock ws s Hs) as (s' & Hs' & _ & Hsame & _).
    by rewrite Hs', Hsame.
Qed.

End Registry.

(** ** The model run on test vectors *)

Section TestVectors.
Import Effect Noble Crypto Reference.

(** The reference primitives have the sizes the properties assume. *)
Lemma primitives_laws : @PrimitivesLaws primitives.
Proof.
  split.
  - reflexivity.
  - reflexivity.
  - intros m. cbn [sha512 digest primitives].
    unfold Sha512.digest, be_bytes.
    by rewrite !length_app, !length_map, !length_seq.
  - intros m k. cbn [poly1305 primitives].
    unfold Poly1305.mac, le_bytes. by rewrite length_map, length_seq.
Qed.

Example sha512_abc :
  Sha512.digest (Slip21.ascii_bytes "abc") =
  unhex ("ddaf35a193617abacc417349ae20413112e6fa4e89a97ea20a9eeee64b55d39a" +:+
         "2192992a274fc1a836ba3c23a3feebbd454d4423643ce80e2a9ac94fa54ca49f").
Proof. vm_compute. reflexivity. Qed.

(** The test vectors of SLIP-0021. *)
Example slip21_master :
  slip21Derive (H := primitives) slip21_seed [] tt =
  (Success (unhex "dbf12b44133eaab506a740f6565cc117228cbf1dd70635cfa8ddfdc9af734756"), tt).
Proof. vm_compute. reflexivity. Qed.

Example slip21_child :
  slip21Derive (H := primitives) slip21_seed [js "SLIP-0021"] tt =
  (Success (unhex "1d065e3ac1bbe5c7fad32cf2305f7d709dc070d672044a19e610c77cdf33de0d"), tt).
Proof. vm_compute. reflexivity. Qed.

Example slip21_grandchild :
  slip21Derive (H := primitives) slip21_seed
    [js "SLIP-0021"; js "Master encryption key"] tt =
  (Success (unhex "ea163130e35bbafdf5ddee97a17b39cef2be4b4f390180d65b54cf05c6a82fde"), tt).
Proof. vm_compute. reflexivity. Qed.

(** A segment outside ASCII: U+017E is two bytes in UTF-8. *)
Example slip21_utf8 :
  slip21Derive (H := primitives) slip21_seed [[382%N]] tt =
  (Success (unhex "05c8fc49a6ed2afdbeb8b8fd7cc17704f939d30b9d8da0afbb178049d994c4dd"), tt).
Proof. vm_compute. reflexivity. Qed.

(** The test vector of NaCl's [crypto_secretbox]. *)
Example secretbox_nacl :
  Js.bind (secretbox (H := primitives) nacl_key nacl_nonce)
    (λ box, box_seal box nacl_message) = Ok nacl_box.
Proof. vm_compute. reflexivity. Qed.

Example open_nacl :
  SecretBoxLive.open (H := primitives) nacl_key (nacl_nonce ++ nacl_box) tt =
  (Success nacl_message, tt).
Proof. vm_compute. reflexivity. Qed.

(** The relay on a state with three registered sockets, the second one
    closed. A POST that succeeds: the two open sockets get the response. *)
Example post_broadcasts :
  Express.app_post [x07] three_sockets =
  ({| Express.statusCode := 200;
      Express.headers := [(js "Content-Type", js "application/x-protobuf")];
      Express.body := Some (Express.BodyBytes [x07]) |},
   @Express.Build_World echo_server 1
     [ {| Express.readyState := Express.OPEN; Express.sent := [Express.Binary [x07]] |};
       {| Express.readyState := Express.CLOSED; Express.sent := [] |};
       {| Express.readyState := Express.OPEN;
          Express.sent := [Express.Binary [x01]; Express.Binary [x07]] |} ]
     [0; 1; 2] []).
Proof. vm_compute. reflexivity. Qed.

(** A bad request: status 400 and the error as JSON, no frame. *)
Example post_bad_request_run :
  Express.app_post [] three_sockets =
  ({| Express.statusCode := 400;
      Express.headers := [(js "Content-Type", js "text/html; charset=utf-8")];
      Express.body :=
        Some (Express.BodyText
                ([123; 34]%N ++ js "reason" ++ [34; 58; 34]%N ++ js "empty" ++ [34; 125]%N)) |},
   three_sockets).
Proof. vm_compute. reflexivity. Qed.

(** A message whose sync fails: the sender alone gets the notification. *)
Example message_failure_run :
  Express.ws_on_message 0 (Express.RawBuffer []) three_sockets =
  (Express.Normal tt,
   @Express.Build_World echo_server 0
     [ {| Express.readyState := Express.OPEN; Express.sent := [Express.sync_error_frame] |};
       {| Express.readyState := Express.CLOSED; Express.sent := [] |};
       {| Express.readyState := Express.OPEN; Express.sent := [Express.Binary [x01]] |} ]
     [0; 1; 2]
     [[Express.LogText (js "Error handling sync request:");
       Express.LogExn
         (Express.FiberFailure
            (Fail {| Express.error := JObject [(js "reason", JString (js "empty"))] |}))]]).
Proof. vm_compute. reflexivity. Qed.

(** A run of the relay: two connections, the first one closes, a POST. *)
Example relay_run :
  Express.run (Express.initial (H := echo_server) 0)
    [Express.Connection; Express.Connection; Express.Closed 0; Express.Post [x09]] =
  @Express.Build_World echo_server 1
    [ {| Express.readyState := Express.CLOSED; Express.sent := [] |};
      {| Express.readyState := Express.OPEN; Express.sent := [Express.Binary [x09]] |} ]
    [0; 1] [].
Proof. vm_compute. reflexivity. Qed.

(** The sealed test vector with a bit of its tag flipped, and with a bit
    of its ciphertext flipped. *)
Example open_nacl_tag_bit :
  SecretBoxLive.open (H := primitives) nacl_key
    (flip_bit (8 * 24 + 3) (nacl_nonce ++ nacl_box)) tt =
  (Failure (Die (Error "invalid tag")), tt).
Proof. vm_compute. reflexivity. Qed.

Example open_nacl_ciphertext_bit :
  SecretBoxLive.open (H := primitives) nacl_key
    (flip_bit (8 * 60) (nacl_nonce ++ nacl_box)) tt =
  (Failure (Die (Error "invalid tag")), tt).
Proof. vm_compute. reflexivity. Qed.

(** A sealed message without its last byte, and one of 39 bytes. *)
Example open_nacl_short :
  SecretBoxLive.open (H := primitives) nacl_key (take 39 (nacl_nonce ++ nacl_box)) tt =
  (Failure (Die (Error "encrypted data should be at least 16 bytes")), tt).
Proof. vm_compute. reflexivity. Qed.

(** A node identifier from the bytes 0, 1, 2, ...: the generator reads
    its batch of 24 bytes from the end. *)
Example nanoidAsNodeId_run :
  fst <$> nanoidAsNodeId 1 counting_entropy =
  Some (Success (js "76543210fedcba98")).
Proof. vm_compute. reflexivity. Qed.

(** C2 does not hold of a key that is a Node [Buffer]: the test vector
    of NaCl, sealed and opened with its key held in a [Buffer]. [seal]
    returns the sealed message of the test vector and leaves 32 zeros in
    the key, so that [open] with this key object fails. [open] with the key
    in a [Buffer] of its own does not fail and does not return the message:
    it returns the ciphertext decrypted under 32 zeros, and leaves zeros
    in the key. With the key in a plain [Uint8Array] it returns the
    message and leaves the key. *)
Theorem open_seal_node_buffer :
  KeyObject.seal (H := primitives) KeyObject.NodeBuffer nacl_message (nacl_entropy, nacl_key) =
    (Success (nacl_nonce ++ nacl_box),
     (snd (randomBytes 24 nacl_entropy), new_Uint8Array 32)) ∧
  (∃ t, KeyObject.open (H := primitives) KeyObject.NodeBuffer (nacl_nonce ++ nacl_box)
          (new_Uint8Array 32)
        = (Failure (Die t), new_Uint8Array 32)) ∧
  KeyObject.open (H := primitives) KeyObject.NodeBuffer (nacl_nonce ++ nacl_box) nacl_key =
    (Success nacl_under_zero_key, new_Uint8Array 32) ∧
  nacl_under_zero_key ≠ nacl_message ∧
  KeyObject.open (H := primitives) KeyObject.TypedArray (nacl_nonce ++ nacl_box) nacl_key =
    (Success nacl_message, nacl_key).
Proof.
  split; [vm_compute; reflexivity|].
  split; [eexists; vm_compute; reflexivity|].
  split; [vm_compute; reflexivity|].
  split; [|vm_compute; reflexivity].
  intros Heq. apply (f_equal (take 1)) in Heq. vm_compute in Heq. discriminate.
Qed.

End TestVectors.

(** ** The properties at concrete inputs *)

Section Instances.
Import Effect Noble Crypto Express Reference.

Lemma slip21Derive_is_slip21_witness :
  @PrimitivesLaws primitives ∧
  (slip21Derive (H := primitives) slip21_seed [js "SLIP-0021"] tt =
     (Success (Slip21.derive (H := primitives) slip21_seed [js "SLIP-0021"]), tt) ∧
   Slip21.derive (H := primitives) slip21_seed [js "SLIP-0021"] =
     take 32 (drop 32
       (foldl (λ state p,
                 Slip21.HMAC_SHA512 (H := primitives) (take 32 state)
                   (x00 :: TextEncoder_encode p))
          (Slip21.HMAC_SHA512 (H := primitives)
             (Slip21.ascii_bytes "Symmetric key seed") slip21_seed)
          [js "SLIP-0021"])) ∧
   length (Slip21.derive (H := primitives) slip21_seed [js "SLIP-0021"]) = 32 ∧
   slip21Derive (H := primitives) slip21_seed [] tt =
     (Success (take 32 (drop 32
        (Slip21.HMAC_SHA512 (H := primitives)
           (Slip21.ascii_bytes "Symmetric key seed") slip21_seed))), tt)).
Proof.
  split; [exact primitives_laws|].
  exact (@slip21Derive_is_slip21 primitives primitives_laws unit
           slip21_seed [js "SLIP-0021"] tt).
Defined.

Lemma open_fails_by_defect_witness :
  @PrimitivesLaws primitives ∧
  ((∀ sealed,
      (∃ m, SecretBoxLive.open (H := primitives) nacl_key sealed tt = (Success m, tt)) ∨
      (∃ t, SecretBoxLive.open (H := primitives) nacl_key sealed tt = (Failure (Die t), tt))) ∧
   (∀ sealed cause,
      fst (SecretBoxLive.open (H := primitives) nacl_key sealed tt) = Failure cause →
      ∃ cause', failureOrCause cause = inr cause') ∧
   (∀ plaintext ent cause,
      fst (SecretBoxLive.seal (H := primitives) nacl_key plaintext ent) = Failure cause →
      ∃ t, cause = Die t) ∧
   (∀ sealed,
      length sealed < 24 + 16 →
      ∃ t, SecretBoxLive.open (H := primitives) nacl_key sealed tt = (Failure (Die t), tt)) ∧
   (∀ plaintext ent sealed ent' tag',
      SecretBoxLive.seal (H := primitives) nacl_key plaintext ent = (Success sealed, ent') →
      length tag' = 16 →
      tag' ≠ take 16 (drop 24 sealed) →
      ∃ t, SecretBoxLive.open (H := primitives) nacl_key
             (take 24 sealed ++ tag' ++ drop 40 sealed) tt
           = (Failure (Die t), tt))).
Proof.
  split; [exact primitives_laws|].
  exact (@open_fails_by_defect primitives primitives_laws unit nacl_key tt).
Defined.

Lemma three_sockets_ok : registry_ok three_sockets.
Proof.
  split.
  - exact (bool_decide_unpack (NoDup [0; 1; 2]) I).
  - repeat constructor.
Defined.

Lemma post_success_witness :
  registry_ok three_sockets ∧
  server_sync (Server := echo_server) [x07] (db three_sockets) = (Success [x07], 1) ∧
  ∃ res w',
    app_post [x07] three_sockets = (res, w') ∧
    statusCode res = 200 ∧
    getHeader (js "Content-Type") res = Some (js "application/x-protobuf") ∧
    Express.body res = Some (BodyBytes [x07]) ∧
    clients w' = clients three_sockets ∧
    length (heap w') = length (heap three_sockets) ∧
    (∀ ws s, heap three_sockets !! ws = Some s → ws ∈ clients three_sockets →
       readyState s = OPEN →
       heap w' !! ws = Some (with_frame s (Binary [x07]))) ∧
    (∀ ws s, heap three_sockets !! ws = Some s →
       ws ∉ clients three_sockets ∨ readyState s ≠ OPEN →
       heap w' !! ws = Some s).
Proof.
  split; [exact three_sockets_ok|]. split; [reflexivity|].
  exact (@post_success echo_server [x07] [x07] three_sockets 1
           three_sockets_ok eq_refl).
Defined.

Lemma post_bad_request_witness :
  server_sync (Server := echo_server) [] (db three_sockets) =
    (Failure (Fail {| error := JObject [(js "reason", JString (js "empty"))] |}), 0) ∧
  failureOrCause (Fail {| error := JObject [(js "reason", JString (js "empty"))] |}) =
    inl {| error := JObject [(js "reason", JString (js "empty"))] |} ∧
  ∃ res,
    app_post [] three_sockets = (res, set_db (H := echo_server) 0 three_sockets) ∧
    statusCode res = 400 ∧
    Express.body res =
      Some (BodyText (JSON_stringify (JObject [(js "reason", JString (js "empty"))]))) ∧
    heap (set_db (H := echo_server) 0 three_sockets) = heap three_sockets ∧
    clients (set_db (H := echo_server) 0 three_sockets) = clients three_sockets.
Proof.
  split; [reflexivity|]. split; [reflexivity|].
  exact (@post_bad_request echo_server [] (JObject [(js "reason", JString (js "empty"))])
           three_sockets _ 0 eq_refl eq_refl).
Defined.

Lemma post_internal_error_witness :
  server_sync (Server := echo_server) [xff] (db three_sockets) =
    (Failure (Die (Error "database is locked")), 0) ∧
  failureOrCause (E := BadRequestError) (Die (Error "database is locked")) =
    inr (Die (Error "database is locked")) ∧
  (app_post [xff] three_sockets =
     ({| statusCode := 500;
         headers := [(js "Content-Type", js "text/html; charset=utf-8")];
         Express.body := Some (BodyText (js "Internal Server Error")) |},
      set_console (console three_sockets ++ [[LogCause (Die (Error "database is locked"))]])
        (set_db (H := echo_server) 0 three_sockets)) ∧
   (∀ (w2 : @World echo_server) cause2 cause2',
      failureOrCause cause2 = inr cause2' →
      fst (post_onExit new_response (Failure cause2) w2) = fst (app_post [xff] three_sockets)) ∧
   heap (snd (app_post [xff] three_sockets)) = heap three_sockets ∧
   clients (snd (app_post [xff] three_sockets)) = clients three_sockets).
Proof.
  split; [reflexivity|]. split; [reflexivity|].
  exact (@post_internal_error echo_server [xff] three_sockets _ _ 0 eq_refl eq_refl).
Defined.

Lemma ws_message_witness :
  heap three_sockets !! 2 =
    Some {| readyState := OPEN; sent := [Binary [x01]] |} ∧
  readyState {| readyState := OPEN; sent := [Binary [x01]] |} ≠ CONNECTING ∧
  server_sync (Server := echo_server) (to_Uint8Array (RawBuffers [[x01]; [x02]]))
    (db three_sockets) = (Success [x01; x02], 1) ∧
  ∃ frame log,
    (frame = Binary [x01; x02] ∧ log = []) ∧
    ws_on_message 2 (RawBuffers [[x01]; [x02]]) three_sockets =
      (Normal tt,
       set_heap (<[2 := with_frame {| readyState := OPEN; sent := [Binary [x01]] |} frame]>
                   (heap three_sockets))
         (set_console (console three_sockets ++ log)
            (set_db (H := echo_server) 1 three_sockets))) ∧
    (∀ other, other ≠ 2 →
       heap (snd (ws_on_message 2 (RawBuffers [[x01]; [x02]]) three_sockets)) !! other
       = heap three_sockets !! other) ∧
    (readyState <$>
       heap (snd (ws_on_message 2 (RawBuffers [[x01]; [x02]]) three_sockets)) !! 2)
      = Some OPEN ∧
    clients (snd (ws_on_message 2 (RawBuffers [[x01]; [x02]]) three_sockets))
      = clients three_sockets.
Proof.
  split; [reflexivity|]. split; [discriminate|]. split; [reflexivity|].
  exact (@ws_message echo_server 2 (RawBuffers [[x01]; [x02]]) three_sockets
           {| readyState := OPEN; sent := [Binary [x01]] |} (Success [x01; x02]) 1
           eq_refl (λ e, eq_ind OPEN (λ st, match st with OPEN => True | _ => False end)
                          I CONNECTING e) eq_refl).
Defined.

End Instances.

(* ===================================================================== *)
(** * Part III: more properties of the code                               *)
(* ===================================================================== *)

(** ** Sealed messages *)

Section Sealed.
Import Effect Noble Crypto.
Context `{Primitives} `{!PrimitivesLaws}.

(** A sealed message is 24+16 bytes longer than its plaintext. *)
Lemma seal_length (key plaintext : Uint8Array) (ent : Entropy) :
  length key = 32 →
  ∃ sealed ent',
    SecretBoxLive.seal key plaintext ent = (Success sealed, ent') ∧
    length sealed = 24 + 16 + length plaintext.
Proof.
  intros Hkey.
  destruct (seal_run key plaintext ent Hkey)
    as (nonce & data & Hnonce & _ & -> & _ & Hseal).
  eexists _, _. split; [exact Hseal|].
  rewrite !length_app, Hnonce, poly1305_length.
  rewrite length_zip_with, length_map, length_seq. lia.
Qed.

(** [seal] succeeds exactly with a key of 32 bytes, and with any other
    key neither [seal] nor [open] returns: both end in a defect. *)
Lemma seal_needs_32_bytes (key : Uint8Array) :
  (∀ plaintext ent,
     (∃ sealed ent', SecretBoxLive.seal key plaintext ent = (Success sealed, ent'))
     ↔ length key = 32) ∧
  (length key ≠ 32 →
   (∀ plaintext ent, ∃ t ent',
      SecretBoxLive.seal key plaintext ent = (Failure (Die t), ent')) ∧
   (∀ sealed St (st : St), ∃ t,
      SecretBoxLive.open key sealed st = (Failure (Die t), st))).
Proof.
  assert (Hdie : length key ≠ 32 → ∀ plaintext ent, ∃ t ent',
    SecretBoxLive.seal key plaintext ent = (Failure (Die t), ent')).
  { intros Hkey plaintext ent. unfold SecretBoxLive.seal, sync.
    destruct (randomBytes 24 ent) as [nonce ent'].
    destruct (secretbox_wrong_sizes key nonce) as [e ->]; [by left|].
    cbn. eauto. }
  split.
  - intros plaintext ent. split.
    + intros (sealed & ent' & Hseal).
      destruct (decide (length key = 32)) as [|Hkey]; [done|].
      destruct (Hdie Hkey plaintext ent) as (t & ent'' & Ht). congruence.
    + intros Hkey.
      destruct (seal_run key plaintext ent Hkey) as (nonce & data & _ & _ & _ & _ & Hseal).
      eauto.
  - intros Hkey. split; [by apply Hdie|].
    intros sealed St st. rewrite open_run.
    destruct (secretbox_wrong_sizes key (take 24 sealed)) as [e ->]; [by left|].
    cbn. eauto.
Qed.


(** What [open] accepts under the bytes of a key is what [seal] makes
    with them. *)
Lemma seal_rebuilds (key sealed m : Uint8Array) (ent : Entropy) :
  SecretBoxLive.open key sealed tt = (Success m, tt) →
  fst (randomBytes 24 ent) = take 24 sealed →
  SecretBoxLive.seal key m ent = (Success sealed, snd (randomBytes 24 ent)).
Proof.
  intros Hopen Hnonce.
  destruct (open_success key sealed m tt Hopen) as (Hkey & Hlong & Htag & Hm).
  destruct (sealed_parts sealed Hlong) as (Hparts & _ & _).
  destruct (seal_run key m ent Hkey) as (nonce & data & _ & -> & -> & _ & Hseal).
  rewrite Hseal, Hnonce. do 2 f_equal.
  rewrite Hparts at 5. f_equal.
  set (stream := xsalsa20_stream key (take 24 sealed)) in *.
  assert (Hdata : zip_with byte_xor m (map stream (seq 32 (length m))) = drop 40 sealed).
  { assert (Hlen : length m = length sealed - 40).
    { rewrite Hm, length_zip_with, length_map, length_seq, length_drop. lia. }
    rewrite Hlen, Hm. apply zip_xor_cancel.
    by rewrite length_map, length_seq, length_drop. }
  by rewrite Hdata, Htag.
Qed.

(** What [open] accepts is what [seal] makes, for a key that is a plain
    [Uint8Array]: when [open] with such a key returns [m] on a sealed
    input, [seal] of [m] with these key bytes, in a key object of either
    kind, drawing the input's nonce, returns exactly that input. (With the
    key in a Node [Buffer], [open] returns another [m]: [open_node_buffer].) *)
Lemma seal_of_opened kind (key sealed m : Uint8Array) (ent : Entropy) :
  KeyObject.open KeyObject.TypedArray sealed key = (Success m, key) →
  fst (randomBytes 24 ent) = take 24 sealed →
  KeyObject.seal kind m (ent, key) =
  (Success sealed, (snd (randomBytes 24 ent), KeyObject.cleaned kind key)).
Proof.
  intros Hopen Hnonce. rewrite open_typed_array in Hopen.
  assert (Hopen' : SecretBoxLive.open key sealed tt = (Success m, tt)).
  { rewrite open_run in Hopen. rewrite open_run.
    by destruct (Js.bind _ _); simplify_eq. }
  destruct (open_success key sealed m tt Hopen') as (Hkey & _).
  rewrite seal_key_object, (seal_rebuilds key sealed m ent Hopen' Hnonce).
  by rewrite decide_True.
Qed.

(** The round trip with a key that is a plain [Uint8Array]: for every
    such key of 32 bytes and every plaintext, whatever nonce [seal] draws,
    [seal] succeeds with the nonce followed by the box, [open] with the
    same key object on what [seal] returned succeeds with exactly the
    plaintext, and the key is as it was. *)
Lemma open_seal_typed_array `{!PrimitivesLaws} (key plaintext : Uint8Array) (ent : Entropy) :
  length key = 32 →
  ∃ sealed ent',
    KeyObject.seal KeyObject.TypedArray plaintext (ent, key) = (Success sealed, (ent', key)) ∧
    take 24 sealed = fst (randomBytes 24 ent) ∧
    KeyObject.open KeyObject.TypedArray sealed key = (Success plaintext, key).
Proof.
  intros Hkey.
  destruct (open_seal_bytes key plaintext ent Hkey) as (sealed & ent' & Hseal & Hnonce & Hopen).
  exists sealed, ent'. rewrite seal_key_object, Hseal, open_typed_array, Hopen.
  by rewrite decide_True.
Qed.

(** [seal] draws exactly 24 bytes from the random generator, whatever the
    key: they are the nonce, and two calls in a row take the nonces from
    consecutive windows of the generator's output. *)
Lemma seal_draws_nonce (key m1 m2 s1 s2 : Uint8Array) (ent ent1 ent2 : Entropy) :
  SecretBoxLive.seal key m1 ent = (Success s1, ent1) →
  SecretBoxLive.seal key m2 ent1 = (Success s2, ent2) →
  take 24 s1 = map ent (seq 0 24) ∧
  take 24 s2 = map ent (seq 24 24) ∧
  ∀ i, ent2 i = ent (48 + i).
Proof.
  intros Hseal1 Hseal2.
  assert (Hkey : length key = 32).
  { apply (proj1 (seal_needs_32_bytes key) m1 ent). eauto. }
  destruct (seal_run key m1 ent Hkey) as (n1 & d1 & Hn1 & Hd1 & _ & _ & Hrun1).
  assert (ent1 = snd (randomBytes 24 ent)) as -> by congruence.
  assert (take 24 s1 = n1) as ->.
  { assert (s1 = n1 ++ poly1305 d1 (map (xsalsa20_stream key n1) (seq 0 32)) ++ d1)
      as -> by congruence.
    by apply take_app_length'. }
  destruct (seal_run key m2 (snd (randomBytes 24 ent)) Hkey)
    as (n2 & d2 & Hn2 & Hd2 & _ & _ & Hrun2).
  assert (ent2 = snd (randomBytes 24 (snd (randomBytes 24 ent)))) as -> by congruence.
  assert (take 24 s2 = n2) as ->.
  { assert (s2 = n2 ++ poly1305 d2 (map (xsalsa20_stream key n2) (seq 0 32)) ++ d2)
      as -> by congruence.
    by apply take_app_length'. }
  rewrite Hd1, Hd2.
  split; [reflexivity|]. split; [reflexivity|].
  intros i. cbn. f_equal.
Qed.

End Sealed.

(** ** Paths that derive the same key *)

Section SamePath.
Import Effect Noble Crypto Slip21.
Context `{Primitives}.

(** [slip21Derive] reads a segment through [TextEncoder], that is through
    its scalar values: paths whose segments have the same scalar values,
    as a segment with a lone surrogate and the segment with U+FFFD in its
    place, derive the same key. *)
Lemma slip21Derive_scalar_values {St} (seed : Uint8Array) (p q : list JsString) (st : St) :
  Forall2 (λ a b, scalar_values a = scalar_values b) p q →
  slip21Derive seed p st = slip21Derive seed q st.
Proof.
  intros Hpq. rewrite !slip21Derive_run. do 2 f_equal.
  unfold derive. do 2 f_equal. generalize (master seed).
  induction Hpq as [|a b p q Hab _ IH]; intros state; [done|].
  cbn [foldl].
  assert (child state a = child state b) as ->.
  { unfold child, TextEncoder_encode. by rewrite Hab. }
  apply IH.
Qed.

End SamePath.

(** ** Identifiers *)

Section Identifiers.
Import Effect Crypto.




(** The [NodeId] schema accepts exactly the strings of 16 characters that
    are letters, digits, underscores or dashes. *)
Lemma NodeId_accepts (s : JsString) :
  NodeId_is s = true ↔
  length s = 16 ∧
  Forall (λ c, (65 ≤ c ≤ 90 ∨ 97 ≤ c ≤ 122 ∨ 48 ≤ c ≤ 57 ∨ c = 95 ∨ c = 45)%N) s.
Proof.
  unfold NodeId_is, NodeId_pattern. rewrite test_anchored_class.
  rewrite forallb_forall, Forall_forall.
  split; intros [Hlen Hall]; (split; [done|]); intros c Hc.
  - apply list_elem_of_In, Hall in Hc. revert Hc. unfold word_char, in_range.
    rewrite !orb_true_iff, !andb_true_iff, !N.leb_le, !N.eqb_eq. lia.
  - apply list_elem_of_In, Hall in Hc. revert Hc. unfold word_char, in_range.
    rewrite !orb_true_iff, !andb_true_iff, !N.leb_le, !N.eqb_eq. lia.
Qed.

Lemma appended_url (b : byte) :
  ∃ c, NanoIdLive.appended NanoIdLive.urlAlphabet (N.to_nat (N.land (Byte.to_N b) 63)) = [c] ∧
       c ∈ NanoIdLive.urlAlphabet.
Proof.
  assert (Hlt : N.to_nat (N.land (Byte.to_N b) 63) < length NanoIdLive.urlAlphabet).
  { change 63%N with (N.ones 6). rewrite N.land_ones.
    pose proof (N.mod_lt (Byte.to_N b) (2 ^ 6)) as Hm.
    change (length NanoIdLive.urlAlphabet) with 64.
    change (2 ^ 6)%N with 64%N in *. lia. }
  destruct (lookup_lt_is_Some_2 _ _ Hlt) as [c Hc].
  exists c. unfold NanoIdLive.appended. rewrite Hc.
  split; [done|]. by eapply list_elem_of_lookup_2.
Qed.

Lemma url_alphabet_word_or_dash (c : N) :
  c ∈ NanoIdLive.urlAlphabet → word_char c || (c =? 45)%N = true.
Proof.
  intros Hc. apply list_elem_of_In in Hc. cbn in Hc.
  repeat (destruct Hc as [<-|Hc]; [reflexivity|]). done.
Qed.

(** [NanoIdLive.nanoid] always returns, with 21 characters of the URL
    alphabet, one for each of the 21 random bytes it draws: letters,
    digits, underscores and dashes only. Having 21 characters, such an
    identifier is never a [NodeId]. *)
Lemma nanoid_is_url_safe (ent : Entropy) :
  ∃ id,
    NanoIdLive.nanoid ent = (Success id, λ i, ent (21 + i)) ∧
    length id = 21 ∧
    Forall (λ c, c ∈ NanoIdLive.urlAlphabet) id ∧
    forallb (λ c, word_char c || (c =? 45)%N) id = true ∧
    NodeId_is id = false.
Proof.
  unfold NanoIdLive.nanoid, NanoIdLive.library_nanoid, sync, randomBytes.
  set (bytes := map ent (seq 0 21)).
  assert (Hlen : length bytes = 21) by (unfold bytes; by rewrite length_map, length_seq).
  set (id := flat_map _ bytes).
  assert (Hid : length id = length bytes ∧ Forall (λ c, c ∈ NanoIdLive.urlAlphabet) id).
  { unfold id. clear. induction bytes as [|b bytes [IHl IHa]]; [by split|].
    destruct (appended_url b) as (c & Hc & Hin).
    cbn [flat_map]. rewrite Hc. cbn [app length].
    split; [by f_equal|by constructor]. }
  destruct Hid as [Hidlen Hall].
  exists id. split; [reflexivity|]. split; [congruence|]. split; [done|]. split.
  - eapply forallb_Forall_impl; [|exact Hall]. apply url_alphabet_word_or_dash.
  - apply not_true_is_false. rewrite NodeId_accepts. intros [Hl _]. lia.
Qed.

End Identifiers.

(** ** The relay over time *)

Section Lifetimes.
Import Effect Express Lifetime.
Context `{Server}.

Lemma later_refl (s : WebSocket) : later s s.
Proof. by repeat split. Qed.

Lemma later_trans (s1 s2 s3 : WebSocket) : later s1 s2 → later s2 s3 → later s1 s3.
Proof.
  intros (Hp1 & Hn1 & Hc1) (Hp2 & Hn2 & Hc2). split; [by etrans|]. split.
  - intros Hne. destruct (Hn1 Hne) as [Hs1 Hr1]. destruct (Hn2 Hr1) as [Hs2 Hr2].
    split; [congruence|done].
  - intros Hcl. specialize (Hc1 Hcl). subst s2. by apply Hc2.
Qed.

Lemma only_sends_later (w w' : World) ws s :
  only_sends w w' → heap w !! ws = Some s →
  ∃ s', heap w' !! ws = Some s' ∧ later s s'.
Proof.
  intros (_ & _ & Hsock) Hs.
  destruct (Hsock ws s Hs) as (s' & Hs' & Hr & Hsame & Hpre).
  exists s'. split; [done|]. split; [done|]. split.
  - intros Hne. rewrite (Hsame Hne). done.
  - intros Hcl. apply Hsame. by rewrite Hcl.
Qed.

Lemma transport_close_later ws0 final (w : World) ws s :
  heap w !! ws = Some s →
  ∃ s', heap (transport_close ws0 final w) !! ws = Some s' ∧ later s s'.
Proof.
  intros Hs. unfold transport_close.
  destruct (heap w !! ws0) as [s0|] eqn:Hs0; [|exists s; split; [done|apply later_refl]].
  assert (Hset : ∀ st, (readyState s0 ≠ OPEN → st ≠ OPEN) → (readyState s0 = CLOSED → st = CLOSED) →
    st ≠ OPEN →
    ∃ s', heap (set_heap (<[ws0 := {| readyState := st; sent := sent s0 |}]> (heap w)) w) !! ws
          = Some s' ∧ later s s').
  { intros st Hkeep Hclosed Hst. cbn [heap set_heap].
    destruct (decide (ws = ws0)) as [->|Hne].
    - assert (s0 = s) as -> by congruence.
      rewrite list_lookup_insert_eq by (by eapply lookup_lt_Some).
      eexists. split; [done|]. split; [done|]. split; [done|].
      intros Hcl. destruct s as [r fs]. cbn in *. by rewrite (Hclosed Hcl), Hcl.
    - rewrite list_lookup_insert_ne by done. exists s. split; [done|apply later_refl]. }
  destruct final.
  - apply Hset; [done|done|done].
  - destruct (decide (readyState s0 = OPEN)) as [Hopen|Hnot].
    + apply Hset; [done|congruence|done].
    + exists s. split; [done|apply later_refl].
Qed.

Lemma step_later (w : World) (ev : Event) ws s :
  heap w !! ws = Some s →
  ∃ s', heap (step w ev) !! ws = Some s' ∧ later s s'.
Proof.
  intros Hs. destruct ev as [|body|ws0 message|ws0|ws0]; cbn [step].
  - exists s. split; [|apply later_refl]. cbn. by apply lookup_app_l_Some.
  - eapply only_sends_later; [apply app_post_only_sends|done].
  - destruct (decide (ws0 < length (heap w))).
    + eapply only_sends_later; [apply sender_ws_on_message|done].
    + exists s. split; [done|apply later_refl].
  - by apply transport_close_later.
  - by apply transport_close_later.
Qed.

(** Over any sequence of events a socket keeps the frames that went out
    through it, in order; once it is not open it never opens again and no
    frame goes out through it; once closed it does not change at all. *)
Lemma run_later (w : World) (evs : list Event) ws s :
  heap w !! ws = Some s →
  ∃ s', heap (run w evs) !! ws = Some s' ∧ later s s'.
Proof.
  intros Hs. induction evs as [|ev evs IH] using rev_ind.
  - exists s. split; [done|apply later_refl].
  - destruct IH as (s1 & Hs1 & Hl1). rewrite run_snoc.
    destruct (step_later (run w evs) ev ws s1 Hs1) as (s2 & Hs2 & Hl2).
    exists s2. split; [done|]. by eapply later_trans.
Qed.

(** From the start, the registry is at every moment the list of all the
    sockets ever accepted, in the order of their connections: closing a
    socket takes nothing out of it. *)
Lemma registry_is_every_socket d (evs : list Event) :
  clients (run (initial d) evs) = seq 0 (length (filter (λ ev, is_connection ev = true) evs)) ∧
  length (heap (run (initial d) evs)) = length (filter (λ ev, is_connection ev = true) evs).
Proof.
  induction evs as [|ev evs [IHc IHl]] using rev_ind; [done|].
  rewrite run_snoc, filter_app, length_app.
  destruct (step_registry (run (initial d) evs) ev) as [-> ->].
  rewrite IHc, IHl.
  destruct (is_connection ev) eqn:Hev.
  - rewrite filter_cons_True by done. cbn [filter length].
    rewrite Nat.add_1_r. split; [by rewrite seq_S|done].
  - rewrite filter_cons_False by (by rewrite Hev). cbn [filter length].
    by rewrite Nat.add_0_r.
Qed.

End Lifetimes.

(** ** The answers of [app.post] *)

Section Answers.
Import Effect Express.
Context `{Server}.

(** Every POST is answered, with a body and with one of three statuses,
    which tells how [server.sync] ended: 200 exactly when it succeeded,
    400 exactly when its cause holds a typed failure, 500 exactly when it
    failed without one. *)
Lemma app_post_status (body : Uint8Array) (w : World) :
  is_Some (Express.body (fst (app_post body w))) ∧
  (statusCode (fst (app_post body w)) = 200 ↔
     ∃ R, fst (server_sync body (db w)) = Success R) ∧
  (statusCode (fst (app_post body w)) = 400 ↔
     ∃ cause e, fst (server_sync body (db w)) = Failure cause ∧ failureOrCause cause = inl e) ∧
  (statusCode (fst (app_post body w)) = 500 ↔
     ∃ cause cause', fst (server_sync body (db w)) = Failure cause ∧
                     failureOrCause cause = inr cause').
Proof.
  destruct (server_sync body (db w)) as [exit d] eqn:Hsync.
  rewrite (app_post_run _ _ _ _ Hsync). cbn [fst].
  unfold post_onExit. destruct exit as [R|cause].
  - destruct (try_catch _ _ _) as [c w']. cbn [fst].
    split; [by eexists|]. split; [split; [eauto|done]|].
    split; (split; [done|by intros (? & ? & ? & _)]).
  - destruct (failureOrCause cause) as [[e]|cause'] eqn:Hcause; cbn [fst].
    + split; [by eexists|]. split; [split; [done|by intros [? ?]]|].
      split; [split; [eauto|done]|].
      split; [done|]. intros (c & c' & [= <-] & Hc). congruence.
    + split; [by eexists|]. split; [split; [done|by intros [? ?]]|].
      split; [|split; [eauto|done]].
      split; [done|]. intros (c & e & [= <-] & Hc). congruence.
Qed.

(** A successful POST in a state with a sound registry: the state after
    it. [broadcast] ends normally, so nothing is logged. *)
Lemma app_post_success_run (body R : Uint8Array) (w : World) d :
  registry_ok w →
  server_sync body (db w) = (Success R, d) →
  ∃ h',
    snd (app_post body w) = set_heap h' (set_db d w) ∧
    length h' = length (heap w) ∧
    ∀ ws s, heap w !! ws = Some s →
      h' !! ws =
      Some (if decide (ws ∈ clients w ∧ readyState s = OPEN)
            then with_frame s (Binary R) else s).
Proof.
  intros Hok Hsync. rewrite (app_post_run _ _ _ _ Hsync).
  destruct (broadcast_run R (set_db d w) Hok) as (h' & Hrun & Hlen & Hlook).
  exists h'. unfold post_onExit, try_catch. rewrite Hrun. done.
Qed.

(** In a state the relay can reach, [broadcast] never throws: a POST that
    succeeds writes nothing with [console.error], and leaves the database
    as [server.sync] left it. *)
Lemma post_success_logs_nothing d0 (evs : list Event) (body R : Uint8Array) d :
  server_sync body (db (run (initial d0) evs)) = (Success R, d) →
  console (snd (app_post body (run (initial d0) evs))) = console (run (initial d0) evs) ∧
  db (snd (app_post body (run (initial d0) evs))) = d.
Proof.
  intros Hsync.
  destruct (app_post_success_run body R _ d
              (registry_ok_run _ evs (registry_ok_initial d0)) Hsync) as (h' & -> & _).
  done.
Qed.

(** Two POSTs in a row that succeed with [R1] and [R2]: a registered open
    socket gets [R1] and then [R2], after the frames it had. *)
Lemma posts_in_order (b1 b2 R1 R2 : Uint8Array) (w : World) d1 d2 ws s :
  registry_ok w →
  server_sync b1 (db w) = (Success R1, d1) →
  server_sync b2 d1 = (Success R2, d2) →
  heap w !! ws = Some s → ws ∈ clients w → readyState s = OPEN →
  heap (run w [Post b1; Post b2]) !! ws =
  Some {| readyState := OPEN; sent := sent s ++ [Binary R1; Binary R2] |}.
Proof.
  intros Hok Hsync1 Hsync2 Hs Hin Hopen.
  cbn [run foldl step].
  destruct (app_post_success_run b1 R1 w d1 Hok Hsync1) as (h1 & -> & Hlen1 & Hlook1).
  set (w1 := set_heap h1 (set_db d1 w)).
  assert (Hok1 : registry_ok w1).
  { destruct Hok as [Hnodup Hvalid]. split; [done|]. cbn. by rewrite Hlen1. }
  destruct (app_post_success_run b2 R2 w1 d2 Hok1 Hsync2) as (h2 & -> & _ & Hlook2).
  cbn [heap set_heap].
  rewrite (Hlook2 ws (with_frame s (Binary R1))).
  - rewrite decide_True by done. unfold with_frame. cbn.
    by rewrite Hopen, <- app_assoc.
  - cbn. rewrite (Hlook1 ws s Hs). by rewrite decide_True.
Qed.

End Answers.

(** ** Instances of the properties above *)

Section MoreInstances.
Import Effect Noble Crypto Express Lifetime Reference.

Lemma seal_length_witness :
  length nacl_key = 32 ∧
  ∃ sealed ent',
    SecretBoxLive.seal (H := primitives) nacl_key nacl_message counting_entropy
      = (Success sealed, ent') ∧
    length sealed = 24 + 16 + length nacl_message.
Proof.
  split; [reflexivity|].
  apply (@seal_length primitives primitives_laws nacl_key nacl_message counting_entropy).
  reflexivity.
Defined.

Lemma seal_needs_32_bytes_witness :
  length [x00] ≠ 32 ∧
  (∀ plaintext ent,
     (∃ sealed ent',
        SecretBoxLive.seal (H := primitives) [x00] plaintext ent = (Success sealed, ent')) ↔
     length [x00] = 32) ∧
  (length [x00] ≠ 32 →
   (∀ plaintext ent,
      ∃ t ent', SecretBoxLive.seal (H := primitives) [x00] plaintext ent
                = (Failure (Die t), ent')) ∧
   (∀ sealed St (st : St),
      ∃ t, SecretBoxLive.open (H := primitives) [x00] sealed st = (Failure (Die t), st))).
Proof.
  split; [discriminate|].
  exact (@seal_needs_32_bytes primitives [x00]).
Defined.


Lemma seal_of_opened_witness :
  KeyObject.open (H := primitives) KeyObject.TypedArray (nacl_nonce ++ nacl_box) nacl_key
    = (Success nacl_message, nacl_key) ∧
  fst (randomBytes 24 nacl_entropy) = take 24 (nacl_nonce ++ nacl_box) ∧
  KeyObject.seal (H := primitives) KeyObject.NodeBuffer nacl_message (nacl_entropy, nacl_key)
    = (Success (nacl_nonce ++ nacl_box),
       (snd (randomBytes 24 nacl_entropy), KeyObject.cleaned KeyObject.NodeBuffer nacl_key)).
Proof.
  assert (Hopen : KeyObject.open (H := primitives) KeyObject.TypedArray
                    (nacl_nonce ++ nacl_box) nacl_key
                  = (Success nacl_message, nacl_key)) by (vm_compute; reflexivity).
  assert (Hnonce : fst (randomBytes 24 nacl_entropy) = take 24 (nacl_nonce ++ nacl_box))
    by (vm_compute; reflexivity).
  split; [exact Hopen|]. split; [exact Hnonce|].
  exact (@seal_of_opened primitives KeyObject.NodeBuffer nacl_key (nacl_nonce ++ nacl_box)
           nacl_message nacl_entropy Hopen Hnonce).
Defined.

Lemma open_seal_typed_array_witness :
  length nacl_key = 32 ∧
  ∃ sealed ent',
    KeyObject.seal (H := primitives) KeyObject.TypedArray nacl_message
      (counting_entropy, nacl_key) = (Success sealed, (ent', nacl_key)) ∧
    take 24 sealed = fst (randomBytes 24 counting_entropy) ∧
    KeyObject.open (H := primitives) KeyObject.TypedArray sealed nacl_key
      = (Success nacl_message, nacl_key).
Proof.
  split; [reflexivity|].
  apply (@open_seal_typed_array primitives primitives_laws nacl_key nacl_message
           counting_entropy).
  reflexivity.
Defined.

Lemma seal_draws_nonce_witness :
  SecretBoxLive.seal (H := primitives) nacl_key nacl_message nacl_entropy
    = (Success (nacl_nonce ++ nacl_box), snd (randomBytes 24 nacl_entropy)) ∧
  SecretBoxLive.seal (H := primitives) nacl_key [] (snd (randomBytes 24 nacl_entropy))
    = (Success (replicate 24 x00 ++
                poly1305 (Primitives := primitives) []
                  (map (xsalsa20_stream (Primitives := primitives) nacl_key (replicate 24 x00))
                     (seq 0 32))),
       snd (randomBytes 24 (snd (randomBytes 24 nacl_entropy)))) ∧
  take 24 (nacl_nonce ++ nacl_box) = map nacl_entropy (seq 0 24) ∧
  take 24 (replicate 24 x00 ++
           poly1305 (Primitives := primitives) []
             (map (xsalsa20_stream (Primitives := primitives) nacl_key (replicate 24 x00))
                (seq 0 32)))
    = map nacl_entropy (seq 24 24) ∧
  ∀ i, snd (randomBytes 24 (snd (randomBytes 24 nacl_entropy))) i = nacl_entropy (48 + i).
Proof.
  assert (H1 : SecretBoxLive.seal (H := primitives) nacl_key nacl_message nacl_entropy
               = (Success (nacl_nonce ++ nacl_box), snd (randomBytes 24 nacl_entropy)))
    by (vm_compute; reflexivity).
  assert (H2 : SecretBoxLive.seal (H := primitives) nacl_key []
                 (snd (randomBytes 24 nacl_entropy))
               = (Success (replicate 24 x00 ++
                    poly1305 (Primitives := primitives) []
                      (map (xsalsa20_stream (Primitives := primitives) nacl_key
                              (replicate 24 x00)) (seq 0 32))),
                  snd (randomBytes 24 (snd (randomBytes 24 nacl_entropy)))))
    by (vm_compute; reflexivity).
  split; [exact H1|]. split; [exact H2|].
  exact (@seal_draws_nonce primitives nacl_key nacl_message [] _ _ nacl_entropy _ _ H1 H2).
Defined.

Lemma slip21Derive_scalar_values_witness :
  Forall2 (λ a b : JsString, scalar_values a = scalar_values b)
    [[55296%N; 97%N]] [[57343%N; 97%N]] ∧
  slip21Derive (H := primitives) slip21_seed [[55296%N; 97%N]] tt =
  slip21Derive (H := primitives) slip21_seed [[57343%N; 97%N]] tt.
Proof.
  assert (Hpath : Forall2 (λ a b : JsString, scalar_values a = scalar_values b)
                    [[55296%N; 97%N]] [[57343%N; 97%N]]).
  { constructor; [reflexivity|constructor]. }
  split; [exact Hpath|].
  exact (@slip21Derive_scalar_values primitives unit slip21_seed _ _ tt Hpath).
Defined.

Lemma run_later_witness :
  heap three_sockets !! 1 = Some {| readyState := CLOSED; sent := [] |} ∧
  ∃ s',
    heap (run three_sockets
            [Post [x07]; Connection; Message 1 (RawBuffer [x08]); Closing 0; Post [x09]]) !! 1
      = Some s' ∧
    later {| readyState := CLOSED; sent := [] |} s'.
Proof.
  split; [reflexivity|].
  apply (@run_later echo_server three_sockets
           [Post [x07]; Connection; Message 1 (RawBuffer [x08]); Closing 0; Post [x09]]
           1 {| readyState := CLOSED; sent := [] |}).
  reflexivity.
Defined.

Lemma post_success_logs_nothing_witness :
  server_sync (Server := echo_server) [x08]
    (db (run (initial (H := echo_server) 0) [Connection; Post [x07]; Closed 0; Connection]))
    = (Success [x08], 2) ∧
  console (snd (app_post [x08]
                  (run (initial (H := echo_server) 0)
                     [Connection; Post [x07]; Closed 0; Connection])))
    = console (run (initial (H := echo_server) 0)
                 [Connection; Post [x07]; Closed 0; Connection]) ∧
  db (snd (app_post [x08]
             (run (initial (H := echo_server) 0)
                [Connection; Post [x07]; Closed 0; Connection]))) = 2.
Proof.
  split; [reflexivity|].
  apply (@post_success_logs_nothing echo_server 0
           [Connection; Post [x07]; Closed 0; Connection] [x08] [x08] 2).
  reflexivity.
Defined.

Lemma posts_in_order_witness :
  registry_ok three_sockets ∧
  server_sync (Server := echo_server) [x07] (db three_sockets) = (Success [x07], 1) ∧
  server_sync (Server := echo_server) [x08] 1 = (Success [x08], 2) ∧
  heap three_sockets !! 2 = Some {| readyState := OPEN; sent := [Binary [x01]] |} ∧
  2 ∈ clients three_sockets ∧
  heap (run three_sockets [Post [x07]; Post [x08]]) !! 2 =
  Some {| readyState := OPEN;
          sent := sent {| readyState := OPEN; sent := [Binary [x01]] |}
                  ++ [Binary [x07]; Binary [x08]] |}.
Proof.
  assert (Hin : 2 ∈ clients three_sockets)
    by exact (bool_decide_unpack (2 ∈ [0; 1; 2]) I).
  split; [exact three_sockets_ok|]. split; [reflexivity|]. split; [reflexivity|].
  split; [reflexivity|]. split; [exact Hin|].
  exact (@posts_in_order echo_server [x07] [x08] [x07] [x08] three_sockets 1 2 2
           {| readyState := OPEN; sent := [Binary [x01]] |}
           three_sockets_ok eq_refl eq_refl eq_refl Hin eq_refl).
Defined.

End MoreInstances.
